(** * neuralprophet/utils.py: a shallow embedding and its verified properties

    The functions embedded here are [get_regularization_lambda],
    [reg_func_ar], [reg_func_trend], [reg_func_season],
    [symmetric_total_percentage_error], [season_config_to_model_dims],
    [set_auto_seasonalities] and [print_epoch_metrics].

    Conventions of the embedding.
    - Python [None] is [option]'s [None]; a raised exception is the left
      injection of a sum, [inl e].
    - [dict] and [OrderedDict] are insertion-ordered mappings with unique
      keys: association lists, see [OrderedDict] below.
    - pandas timestamps and timedeltas are integer counts of nanoseconds
      ([Z]); the missing value [NaT] is [None]; a timedelta that does not
      fit 64 bits raises [OverflowError].
    - Python floats and the entries of numpy arrays and weight tensors are
      read in exact arithmetic, rationals ([Q]) and, where [exp] and a
      power occur, reals ([R]): the arithmetic of the source is kept
      operation by operation, rounding and the non-finite values are not
      part of this reading. What is stated of it is meant to hold of the
      rounded arithmetic as well; where rounding decides,
      [symmetric_total_percentage_error_float64] evaluates the same
      operations in binary64.
    - [print] appends lines to a standard output, a list of lines. *)

From Stdlib Require Import Reals Lra.
From Stdlib Require Import ZArith QArith Qabs Qminmax List String Bool.
From Stdlib Require Import PrimFloat.
From Stdlib Require Import Lia Lqa.
Import ListNotations.

Local Open Scope string_scope.
Local Open Scope list_scope.
Local Open Scope Z_scope.

(** ** Exceptions and effects *)

Inductive exn : Type :=
| KeyError (key : string)
| ZeroDivisionError
| TypeError
| ValueError
| IndexError
| OverflowError.

(** A computation that prints lines and then returns or raises. *)
Definition M (L A : Type) : Type := (list L * (exn + A))%type.

Definition ret {L A : Type} (a : A) : M L A := ([], inr a).
Definition raise {L A : Type} (e : exn) : M L A := ([], inl e).
Definition print {L : Type} (l : L) : M L unit := ([l], inr tt).
Definition lift {L A : Type} (r : exn + A) : M L A := ([], r).

Definition bind {L A B : Type} (m : M L A) (k : A -> M L B) : M L B :=
  match m with
  | (out, inl e) => (out, inl e)
  | (out, inr a) => let (out', r) := k a in (out ++ out', r)
  end.

Declare Scope run_scope.
Delimit Scope run_scope with run.
Notation "x <- m ;; k" := (bind m (fun x => k))
  (at level 61, m at next level, right associativity) : run_scope.
Notation "m ;;; k" := (bind m (fun _ => k))
  (at level 61, right associativity) : run_scope.

Definition stdout {L A : Type} (m : M L A) : list L := fst m.
Definition outcome {L A : Type} (m : M L A) : exn + A := snd m.

(** ** Insertion-ordered dictionaries *)

Module OrderedDict.

Definition t (V : Type) : Type := list (string * V).

Definition items {V : Type} (d : t V) : list (string * V) := d.
Definition keys {V : Type} (d : t V) : list string := map fst d.
Definition values {V : Type} (d : t V) : list V := map snd d.
Definition len {V : Type} (d : t V) : Z := Z.of_nat (List.length d).

(** [d[k]]; [None] stands for the [KeyError] of a missing key. *)
Fixpoint get {V : Type} (k : string) (d : t V) : option V :=
  match d with
  | [] => None
  | (k', v) :: rest => if String.eqb k k' then Some v else get k rest
  end.

(** [d[k] = v]: a key already present keeps its position, a new key goes
    to the end. *)
Fixpoint set {V : Type} (k : string) (v : V) (d : t V) : t V :=
  match d with
  | [] => [(k, v)]
  | (k', v') :: rest =>
      if String.eqb k k' then (k, v) :: rest else (k', v') :: set k v rest
  end.

(** [{**d, **e}] and [d.update(e)]: the items of [e] are assigned in
    order. *)
Definition update {V : Type} (d e : t V) : t V :=
  fold_left (fun acc kv => set (fst kv) (snd kv) acc) e d.

(** Keys of a dictionary are pairwise distinct. *)
Definition wf {V : Type} (d : t V) : Prop := NoDup (keys d).

End OrderedDict.

(** ** Seasonality configuration *)

(** The [arg] of a period: the string ['auto'], [True], [False], or a
    number (an [int], or a finite [float]). *)
Inductive Arg : Type :=
| ArgAuto
| ArgBool (b : bool)
| ArgInt (z : Z)
| ArgFloat (q : Q).

(** A period is an attribute dictionary with the fields [arg] and
    [resolution]. *)
Record Period : Type := mkPeriod { arg : Arg; resolution : Z }.

(** The seasonal configuration: its [type] and the ordered [periods]. *)
Record SeasonConfig : Type := mkSeasonConfig {
  type : string;
  periods : OrderedDict.t Period
}.

(** ** [season_config_to_model_dims] *)

Definition season_config_to_model_dims (season_config : option SeasonConfig)
  : option (OrderedDict.t Z) :=
  match season_config with
  | None => None
  | Some cfg =>
      if OrderedDict.len (periods cfg) <? 1 then None
      else
        Some (fold_left
                (fun seasonal_dims item =>
                   let '(name, period) := item in
                   let resolution := resolution period in
                   let resolution :=
                     if String.eqb (type cfg) "fourier" then 2 * resolution
                     else resolution in
                   OrderedDict.set name resolution seasonal_dims)
                (OrderedDict.items (periods cfg)) [])
  end.

(** ** Date series

    A series of datestamps is the list of its values in row order; a
    timestamp is its number of nanoseconds since the epoch, a timedelta a
    number of nanoseconds. A timedelta is stored in 64 bits, the smallest
    value standing for [NaT]: a difference of timestamps beyond
    [Timedelta_max] in absolute value raises [OverflowError]. *)

Definition Timedelta_days (days : Z) : Z := days * 86400000000000.
Definition Timedelta_weeks (weeks : Z) : Z := Timedelta_days (7 * weeks).

Definition Timedelta_max : Z := 9223372036854775807.

Definition Timedelta_of (ns : Z) : exn + Z :=
  if Z.abs ns <=? Timedelta_max then inr ns else inl OverflowError.

(** [Series.min()] and [Series.max()]: [NaT] on an empty series. *)
Definition series_min (s : list Z) : option Z :=
  match s with
  | [] => None
  | x :: rest => Some (fold_left Z.min rest x)
  end.

Definition series_max (s : list Z) : option Z :=
  match s with
  | [] => None
  | x :: rest => Some (fold_left Z.max rest x)
  end.

(** [Series.diff()]: each row minus the row before it, in row order; the
    first row has no predecessor and holds [NaT]. *)
Fixpoint diff_from (prev : Z) (s : list Z) : exn + list (option Z) :=
  match s with
  | [] => inr []
  | x :: rest =>
      match Timedelta_of (x - prev) with
      | inl err => inl err
      | inr d =>
          match diff_from x rest with
          | inl err => inl err
          | inr ds => inr (Some d :: ds)
          end
      end
  end.

Definition series_diff (s : list Z) : exn + list (option Z) :=
  match s with
  | [] => inr []
  | x :: rest =>
      match diff_from x rest with
      | inl err => inl err
      | inr ds => inr (None :: ds)
      end
  end.

(** [values.nonzero()]: a zero timedelta is dropped; [NaT] is not zero. *)
Definition is_nonzero (v : option Z) : bool :=
  match v with
  | None => true
  | Some z => negb (z =? 0)
  end.

(** The missing values are skipped by [min()]. *)
Fixpoint dropna (s : list (option Z)) : list Z :=
  match s with
  | [] => []
  | None :: rest => dropna rest
  | Some z :: rest => z :: dropna rest
  end.

(** [dt = dates.diff()] and [dt.iloc[dt.values.nonzero()[0]].min()]. *)
Definition min_dt (dates : list Z) : exn + option Z :=
  match series_diff dates with
  | inl err => inl err
  | inr dt => inr (series_min (dropna (filter is_nonzero dt)))
  end.

(** Arithmetic and comparisons with [NaT]: a difference with [NaT] is
    [NaT], a comparison with [NaT] is [False]. *)
Definition ts_sub (a b : option Z) : exn + option Z :=
  match a, b with
  | Some x, Some y =>
      match Timedelta_of (x - y) with
      | inl err => inl err
      | inr d => inr (Some d)
      end
  | _, _ => inr None
  end.

Definition td_lt (a : option Z) (b : Z) : bool :=
  match a with
  | Some x => x <? b
  | None => false
  end.

Definition td_ge (a : option Z) (b : Z) : bool :=
  match a with
  | Some x => b <=? x
  | None => false
  end.

(** [last - first < bound]. *)
Definition span_below (last first : option Z) (bound : Z) : exn + bool :=
  match ts_sub last first with
  | inl err => inl err
  | inr span => inr (td_lt span bound)
  end.

(** Lines 136 to 144: the dictionary [auto_disable], or the exception of
    one of the differences. *)
Definition auto_disable (dates : list Z) : exn + OrderedDict.t bool :=
  let first := series_min dates in
  let last := series_max dates in
  match min_dt dates with
  | inl err => inl err
  | inr min_dt =>
      match span_below last first (Timedelta_days 730) with
      | inl err => inl err
      | inr yearly =>
          match span_below last first (Timedelta_weeks 2) with
          | inl err => inl err
          | inr weekly =>
              match span_below last first (Timedelta_days 2) with
              | inl err => inl err
              | inr daily =>
                  inr [ ("yearly", yearly);
                        ("weekly",
                         weekly || td_ge min_dt (Timedelta_weeks 1));
                        ("daily",
                         daily || td_ge min_dt (Timedelta_days 1)) ]
              end
          end
      end
  end.

(** ** [set_auto_seasonalities] *)

(** What the function writes to the console: the message of a disabled
    seasonality, or the configuration itself ([verbose]). *)
Inductive console : Type :=
| Message (text : string)
| ShowConfig (cfg : SeasonConfig).

Definition disabling_message (name : string) : string :=
  "Disabling " ++ name ++ " seasonality. Run prophet with "
  ++ name ++ "_seasonality=True to override this.".

(** [int(arg)] on a number: an [int] is itself, a [float] is truncated
    towards zero. *)
Definition int_of_float (q : Q) : Z := Z.quot (Qnum q) (Z.pos (Qden q)).

Local Open Scope run_scope.

(** The body of the first loop up to the assignment: the resolution of
    one period. *)
Definition resolve_period (auto_disable : OrderedDict.t bool)
    (name : string) (period : Period) : M console Z :=
  let default_resolution := resolution period in
  match arg period with
  | ArgAuto =>
      match OrderedDict.get name auto_disable with
      | None => raise (KeyError name)
      | Some true => print (Message (disabling_message name)) ;;; ret 0
      | Some false => ret default_resolution
      end
  | ArgBool true => ret default_resolution
  | ArgBool false => ret 0
  | ArgInt z => ret z
  | ArgFloat q => ret (int_of_float q)
  end.

(** The first loop. It runs over the names the dictionary had when the
    loop started; [period] is the object stored under [name], and the
    assignment [season_config.periods[name].resolution = resolution]
    changes that object in place. *)
Fixpoint resolve_loop (auto_disable : OrderedDict.t bool)
    (names : list string) (periods : OrderedDict.t Period)
  : M console (OrderedDict.t Period) :=
  match names with
  | [] => ret periods
  | name :: rest =>
      match OrderedDict.get name periods with
      | None => raise (KeyError name)
      | Some period =>
          resolution <- resolve_period auto_disable name period ;;
          resolve_loop auto_disable rest
            (OrderedDict.set name (mkPeriod (arg period) resolution) periods)
      end
  end.

(** The second loop: the periods with a positive resolution. *)
Definition rebuild_periods (periods : OrderedDict.t Period)
  : OrderedDict.t Period :=
  fold_left
    (fun new_periods item =>
       let '(name, period) := item in
       if resolution period >? 0
       then OrderedDict.set name period new_periods
       else new_periods)
    (OrderedDict.items periods) [].

Definition set_auto_seasonalities (dates : list Z)
    (season_config : SeasonConfig) (verbose : bool)
  : M console (option SeasonConfig) :=
  auto_disable <- lift (auto_disable dates) ;;
  resolved <- resolve_loop auto_disable
                (OrderedDict.keys (periods season_config))
                (periods season_config) ;;
  let new_periods := rebuild_periods resolved in
  let season_config := mkSeasonConfig (type season_config) new_periods in
  (if verbose then print (ShowConfig season_config) else ret tt) ;;;
  ret (if OrderedDict.len (periods season_config) >? 0
       then Some season_config else None).

Local Close Scope run_scope.

(** ** [print_epoch_metrics]

    The metrics are a dictionary from metric names to scalars. The
    one-row [DataFrame] is rendered by pandas; of the rendering the model
    keeps the lines and what each line shows, not the column widths. *)

Inductive frame_line : Type :=
| HeaderLine (columns : list string)
| ValueLine (index : Z) (cells : list Q)
| TextLine (text : string)
| IndexLine (index : list Z).

(** [pd.DataFrame(data, index=[index]).to_string(...)], split at its line
    breaks. A frame without columns is rendered as the three lines
    [Empty DataFrame], [Columns: []] and [Index: [...]]. *)
Definition DataFrame_to_string (data : OrderedDict.t Q) (index : Z)
  : list frame_line :=
  match data with
  | [] => [TextLine "Empty DataFrame"; TextLine "Columns: []";
           IndexLine [index]]
  | _ :: _ => [HeaderLine (OrderedDict.keys data);
               ValueLine index (OrderedDict.values data)]
  end.

(** [print] of a string of several lines. *)
Definition print_lines {L : Type} (ls : list L) : M L unit := (ls, inr tt).

(** A dictionary display or comprehension: the items are assigned in
    order to an empty dictionary. *)
Definition dict_of_items {V : Type} (kvs : list (string * V))
  : OrderedDict.t V :=
  OrderedDict.update [] kvs.

Definition print_epoch_metrics (metrics : OrderedDict.t Q)
    (val_metrics : option (OrderedDict.t Q)) (e : Z) : M frame_line unit :=
  let metrics :=
    match val_metrics with
    | Some val_metrics =>
        if OrderedDict.len val_metrics >? 0 then
          let val :=
            dict_of_items
              (map (fun item => ((fst item ++ "_val")%string, snd item))
                   (OrderedDict.items val_metrics)) in
          OrderedDict.update (dict_of_items metrics) val
        else metrics
    | None => metrics
    end in
  let metrics_string := DataFrame_to_string (dict_of_items metrics) (e + 1) in
  if e >? 0 then
    match nth_error metrics_string 1 with
    | Some second => print second
    | None => raise IndexError
    end
  else print_lines metrics_string.

(** ** Numeric helpers

    Scalars are rationals. Python's [/] on floats raises on a zero
    divisor. *)

Local Open Scope Q_scope.

Definition Qltb (x y : Q) : bool := negb (Qle_bool y x).

Definition py_div (a b : Q) : exn + Q :=
  if Qeq_bool b 0 then inl ZeroDivisionError else inr (a / b).

(** ** [get_regularization_lambda] *)

Definition get_regularization_lambda (sparsity : option Q)
    (lambda_delay_epochs : option Z) (epoch : option Z)
  : exn + option Q :=
  match sparsity with
  | Some s =>
      if Qltb s 1 then
        match py_div 1 s with
        | inl err => inl err
        | inr inv =>
            let lam := 0.02 * (inv - 1) in
            match lambda_delay_epochs with
            | None => inr (Some lam)
            | Some delay =>
                match epoch with
                | None => inl TypeError
                | Some ep =>
                    if (ep <? delay)%Z then
                      match py_div (lam * inject_Z ep)
                                   (1 * inject_Z delay) with
                      | inl err => inl err
                      | inr lam => inr (Some lam)
                      end
                    else inr (Some lam)
                end
            end
        end
      else inr None
  | None => inr None
  end.

(** ** Weight tensors

    A tensor is the list of its elements; [torch.sum] adds them up. *)

Definition tensor_sum (t : list Q) : Q := fold_left Qplus t 0.

(** [torch.clamp(x, min=m)] on one element. *)
Definition clamp_min (x m : Q) : Q := if Qltb x m then m else x.

(** ** [reg_func_trend] *)

Definition reg_func_trend (weights : list Q) (threshold : option Q) : Q :=
  let abs_weights := map Qabs weights in
  let abs_weights :=
    match threshold with
    | Some threshold =>
        map (fun w => clamp_min (w - threshold) 0) abs_weights
    | None => abs_weights
    end in
  let reg := abs_weights in
  tensor_sum reg.

(** ** [symmetric_total_percentage_error]

    One-dimensional arrays. A binary operation works element by element
    on arrays of one length, stretches an array of length one, and raises
    on other shapes. *)

Fixpoint zip_with (f : Q -> Q -> Q) (a b : list Q) : list Q :=
  match a, b with
  | x :: a', y :: b' => f x y :: zip_with f a' b'
  | _, _ => []
  end.

Definition np_binop (f : Q -> Q -> Q) (a b : list Q) : exn + list Q :=
  if Nat.eqb (List.length a) (List.length b) then inr (zip_with f a b)
  else
    match a, b with
    | [x], _ => inr (map (f x) b)
    | _, [y] => inr (map (fun x => f x y) a)
    | _, _ => inl ValueError
    end.

Definition np_abs (a : list Q) : list Q := map Qabs a.
Definition np_sum (a : list Q) : Q := fold_left Qplus a 0.

Definition symmetric_total_percentage_error (values estimates : list Q)
  : exn + Q :=
  match np_binop Qminus estimates values with
  | inl err => inl err
  | inr diff =>
      let sum_abs_diff := np_sum (np_abs diff) in
      match np_binop Qplus (np_abs estimates) (np_abs values) with
      | inl err => inl err
      | inr abs_sum =>
          let sum_abs := np_sum abs_sum in
          inr (100 * sum_abs_diff / (10e-9 + sum_abs))
      end
  end.

Local Close Scope Q_scope.

(** ** [symmetric_total_percentage_error] in binary64

    The same operations on arrays of one length, each rounded as numpy
    rounds it for [float64]; the elements are added up in row order, as
    numpy does for fewer than eight of them. *)

Fixpoint f64_zip_with (f : float -> float -> float) (a b : list float)
  : list float :=
  match a, b with
  | x :: a', y :: b' => f x y :: f64_zip_with f a' b'
  | _, _ => []
  end.

Definition f64_sum (a : list float) : float :=
  fold_left PrimFloat.add a 0%float.

#[warnings="-inexact-float"] Definition symmetric_total_percentage_error_float64
    (values estimates : list float) : float :=
  let sum_abs_diff :=
    f64_sum (map PrimFloat.abs (f64_zip_with PrimFloat.sub estimates values))
  in
  let sum_abs :=
    f64_sum (f64_zip_with PrimFloat.add
               (map PrimFloat.abs estimates) (map PrimFloat.abs values)) in
  (100 * sum_abs_diff / (10e-9 + sum_abs))%float.

(** ** [reg_func_ar]

    The tensor is the list of its elements, read as reals; [torch.mean]
    of a tensor without elements is [nan], here [None]. *)

Local Open Scope R_scope.

Definition real_sum (t : list R) : R := fold_left Rplus t 0.

Definition real_mean (t : list R) : option R :=
  match t with
  | [] => None
  | _ :: _ => Some (real_sum t / INR (List.length t))
  end.

Definition reg_func_ar (weights : list R) : option R :=
  let abs_weights := map Rabs weights in
  let reg :=
    map (fun a => 2 / (1 + exp (- 3 * Rpower (1e-12 + a) (1 / 3))) - 1)
      abs_weights in
  real_mean reg.

Local Close Scope R_scope.

(** * Reference definitions and sample inputs *)

(** The dimension of one period, as the specification words it. *)
Definition period_dim (kind : string) (p : Period) : Z :=
  if String.eqb kind "fourier" then 2 * resolution p else resolution p.


(** A yearly and a weekly Fourier seasonality. *)
Definition fourier_yearly_weekly : SeasonConfig :=
  mkSeasonConfig "fourier"
    [("yearly", mkPeriod ArgAuto 6); ("weekly", mkPeriod (ArgBool true) 4)].


(** The names that [set_auto_seasonalities] has a flag for. *)
Definition builtin_names : list string := ["yearly"; "weekly"; "daily"].

Definition is_builtin (name : string) : bool :=
  existsb (String.eqb name) builtin_names.

(** The flag of a name, when it has one. *)
Definition flag_of (flags : OrderedDict.t bool) (name : string) : bool :=
  match OrderedDict.get name flags with
  | Some b => b
  | None => false
  end.

(** The resolution of a period as the specification words it, from the
    auto-disable flag of its name, its argument and its default
    resolution. *)
Definition resolution_rule (disabled : bool) (a : Arg)
    (default_resolution : Z) : Z :=
  match a with
  | ArgAuto => if disabled then 0 else default_resolution
  | ArgBool true => default_resolution
  | ArgBool false => 0
  | ArgInt z => z
  | ArgFloat q => int_of_float q
  end.

Definition resolved_entry (flags : OrderedDict.t bool)
    (it : string * Period) : string * Period :=
  (fst it,
   mkPeriod (arg (snd it))
     (resolution_rule (flag_of flags (fst it)) (arg (snd it))
        (resolution (snd it)))).

Definition is_active (it : string * Period) : bool :=
  0 <? resolution (snd it).

(** A period left on ['auto'] under a name without a flag. *)
Definition is_custom_auto (it : string * Period) : bool :=
  match arg (snd it) with
  | ArgAuto => negb (is_builtin (fst it))
  | _ => false
  end.

(** Three years of daily datestamps would be long; two datestamps three
    years apart and a third one a day later give the same flags. *)
Definition three_years : list Z :=
  [0; Timedelta_days 1095; Timedelta_days 1096].

Definition mixed_config : SeasonConfig :=
  mkSeasonConfig "fourier"
    [("yearly", mkPeriod ArgAuto 6);
     ("weekly", mkPeriod (ArgBool false) 4);
     ("daily", mkPeriod ArgAuto 6);
     ("quarterly", mkPeriod (ArgFloat 2.7) 3)].

Definition custom_config : SeasonConfig :=
  mkSeasonConfig "fourier"
    [("yearly", mkPeriod ArgAuto 6); ("monthly", mkPeriod ArgAuto 4)].

(** The datestamps are in ascending order (equal neighbours allowed). *)
Fixpoint ascending_from (prev : Z) (s : list Z) : bool :=
  match s with
  | [] => true
  | x :: rest => (prev <=? x) && ascending_from x rest
  end.

Definition is_ascending (s : list Z) : bool :=
  match s with
  | [] => true
  | x :: rest => ascending_from x rest
  end.

(** The minimal gap as the specification words it: sort the dates, take
    the differences of consecutive dates, keep the strictly positive ones
    and take the smallest. *)
Fixpoint insert_sorted (x : Z) (s : list Z) : list Z :=
  match s with
  | [] => [x]
  | y :: rest => if x <=? y then x :: s else y :: insert_sorted x rest
  end.

Fixpoint sort_dates (s : list Z) : list Z :=
  match s with
  | [] => []
  | x :: rest => insert_sorted x (sort_dates rest)
  end.

Fixpoint gaps_from (prev : Z) (s : list Z) : list Z :=
  match s with
  | [] => []
  | x :: rest => (x - prev) :: gaps_from x rest
  end.

Definition gaps (s : list Z) : list Z :=
  match s with
  | [] => []
  | x :: rest => gaps_from x rest
  end.

Definition min_gap_spec (dates : list Z) : option Z :=
  series_min (filter (fun g => 0 <? g) (gaps (sort_dates dates))).

(** The smallest difference between consecutive dates in the order given
    that is not zero. *)
Definition row_gap (dates : list Z) : option Z :=
  series_min (filter (fun g => negb (g =? 0)) (gaps dates)).

(** The span of the dates, the largest minus the smallest. *)
Definition span_of (dates : list Z) : option Z :=
  match series_max dates, series_min dates with
  | Some last, Some first => Some (last - first)
  | _, _ => None
  end.

(** The span can be held by a timedelta. *)
Definition span_fits (dates : list Z) : bool :=
  match span_of dates with
  | Some span => span <=? Timedelta_max
  | None => true
  end.

(** The three flags as the specification words them, from the span and
    from a minimal gap. *)
Definition flags_of (span gap : option Z) : OrderedDict.t bool :=
  [ ("yearly", td_lt span (Timedelta_days 730));
    ("weekly", td_lt span (Timedelta_days 14)
               || td_ge gap (Timedelta_days 7));
    ("daily", td_lt span (Timedelta_days 2)
              || td_ge gap (Timedelta_days 1)) ].

Definition expected_flags (dates : list Z) : OrderedDict.t bool :=
  flags_of (span_of dates) (row_gap dates).


(** Three datestamps that are not in ascending order: day 2, day 0,
    day 1. *)
Definition unsorted_dates : list Z :=
  [Timedelta_days 2; 0; Timedelta_days 1].

(** Ten days of daily datestamps, one of them twice. *)
Definition ten_days : list Z :=
  map Timedelta_days [0; 1; 2; 3; 3; 4; 5; 6; 7; 8; 9].

(** The validation metrics under their displayed names. *)
Definition suffixed (val_metrics : OrderedDict.t Q) : OrderedDict.t Q :=
  map (fun item => ((fst item ++ "_val")%string, snd item)) val_metrics.

(** The displayed row as the specification words it: the training
    entries, then the validation entries under their suffixed names. *)
Definition displayed_row (metrics : OrderedDict.t Q)
    (val_metrics : option (OrderedDict.t Q)) : OrderedDict.t Q :=
  match val_metrics with
  | Some val_metrics => metrics ++ suffixed val_metrics
  | None => metrics
  end.

(** No validation name, once suffixed, is the name of a training
    metric. *)
Definition no_clash (metrics : OrderedDict.t Q)
    (val_metrics : option (OrderedDict.t Q)) : Prop :=
  match val_metrics with
  | Some val_metrics =>
      OrderedDict.wf val_metrics
      /\ forall k, In k (OrderedDict.keys val_metrics) ->
                   ~ In (k ++ "_val")%string (OrderedDict.keys metrics)
  | None => True
  end.

Definition loss_only : OrderedDict.t Q := [("loss", 1%Q)].

(** Training metrics of which one already bears a suffixed name. *)
Definition clashing_metrics : OrderedDict.t Q :=
  [("loss_val", 1%Q); ("mae", 2%Q)].

Definition clashing_val_metrics : OrderedDict.t Q := [("loss", 3%Q)].

(** The validation entries under their displayed names, none when no
    validation metrics are given. *)
Definition validation_row (val_metrics : option (OrderedDict.t Q))
  : OrderedDict.t Q :=
  match val_metrics with
  | Some val_metrics => suffixed val_metrics
  | None => []
  end.

(** The name [k] is a key of the dictionary. *)
Definition has_key {V : Type} (d : OrderedDict.t V) (k : string) : bool :=
  existsb (String.eqb k) (OrderedDict.keys d).

Local Open Scope Q_scope.

(** The sum over the elements of a tensor, and over the positions of two
    arrays of one length. *)
Fixpoint sum_of (f : Q -> Q) (t : list Q) : Q :=
  match t with
  | [] => 0
  | w :: rest => f w + sum_of f rest
  end.

Fixpoint sum_of2 (f : Q -> Q -> Q) (a b : list Q) : Q :=
  match a, b with
  | x :: a', y :: b' => f x y + sum_of2 f a' b'
  | _, _ => 0
  end.

(** The symmetric percentage error as the specification words it. *)
Definition stpe_formula (values estimates : list Q) : Q :=
  100 * sum_of2 (fun e v => Qabs (e - v)) estimates values
  / (1e-8 + sum_of2 (fun e v => Qabs e + Qabs v) estimates values).

(** The regularization strength without a delay. *)
Definition full_lambda (sparsity : Q) : Q := 0.02 * (1 / sparsity - 1).

(** The function returns the number [q]. *)
Definition returns (result : exn + option Q) (q : Q) : Prop :=
  exists lam, result = inr (Some lam) /\ lam == q.

Local Close Scope Q_scope.

Local Open Scope R_scope.

(** The penalty of one weight in [reg_func_ar], and the sum of a function
    over the elements of a tensor of reals. *)
Definition ar_term (w : R) : R :=
  2 / (1 + exp (- 3 * Rpower (1e-12 + Rabs w) (1 / 3))) - 1.

Fixpoint real_sum_of (f : R -> R) (t : list R) : R :=
  match t with
  | [] => 0
  | w :: rest => f w + real_sum_of f rest
  end.

Local Close Scope R_scope.

(** * Further functions and reference definitions *)

(** ** [reg_func_season]

    [torch.mean] divides the sum of the elements by their number; the
    mean of a tensor without elements is [nan], here [None]. *)

Definition tensor_numel (t : list Q) : Q :=
  inject_Z (Z.of_nat (List.length t)).

Definition tensor_mean (t : list Q) : option Q :=
  match t with
  | [] => None
  | _ :: _ => Some (tensor_sum t / tensor_numel t)%Q
  end.

Definition reg_func_season (weights : list Q) : option Q :=
  let abs_weights := map Qabs weights in
  let reg := abs_weights in
  tensor_mean reg.

(** What the first loop of [set_auto_seasonalities] prints for one
    period. *)
Definition period_messages (flags : OrderedDict.t bool)
    (it : string * Period) : list console :=
  match arg (snd it) with
  | ArgAuto =>
      if flag_of flags (fst it)
      then [Message (disabling_message (fst it))]
      else []
  | _ => []
  end.

(** Every period on ['auto'] bears a name with a flag. *)
Definition auto_names_builtin (ps : OrderedDict.t Period) : Prop :=
  forall name p, In (name, p) ps -> arg p = ArgAuto -> In name builtin_names.

Definition has_auto (ps : OrderedDict.t Period) : bool :=
  existsb (fun it => match arg (snd it) with ArgAuto => true | _ => false end)
    ps.

(** The periods that [set_auto_seasonalities] keeps. *)
Definition kept_periods (flags : OrderedDict.t bool)
    (ps : OrderedDict.t Period) : OrderedDict.t Period :=
  filter is_active (map (resolved_entry flags) ps).

(** The first years of a weekly series, given from the latest date to the
    earliest. *)
Definition weekly_descending : list Z :=
  map Timedelta_days [1099; 1092; 1085; 1078; 7; 0].

Definition all_auto_config : SeasonConfig :=
  mkSeasonConfig "fourier"
    [("yearly", mkPeriod ArgAuto 6);
     ("weekly", mkPeriod ArgAuto 4);
     ("daily", mkPeriod ArgAuto 6)].

Definition fixed_config : SeasonConfig :=
  mkSeasonConfig "linear"
    [("monthly", mkPeriod (ArgInt 5) 3);
     ("weekly", mkPeriod (ArgBool true) 4);
     ("hourly", mkPeriod (ArgBool false) 2)].

(** Two datestamps an hour apart and a third one two years later. *)
Definition hourly_start : list Z := [0; 3600000000000; Timedelta_days 731].

(** What is left of [all_auto_config] after three years of history. *)
Definition yearly_weekly_auto : SeasonConfig :=
  mkSeasonConfig "fourier"
    [("yearly", mkPeriod ArgAuto 6); ("weekly", mkPeriod ArgAuto 4)].

(** There is nothing to display: no training metric and no validation
    metric. *)
Definition no_metrics (metrics : OrderedDict.t Q)
    (val_metrics : option (OrderedDict.t Q)) : bool :=
  match metrics, val_metrics with
  | [], None => true
  | [], Some [] => true
  | _, _ => false
  end.

(** * Properties *)

(** ** Dictionaries *)

Section DictFacts.

Context {V : Type}.

Lemma get_app_fresh (k : string) (d e : OrderedDict.t V) :
  ~ In k (OrderedDict.keys d) ->
  OrderedDict.get k (d ++ e) = OrderedDict.get k e.
Proof.
  induction d as [|[k' v'] d IH]; simpl; intros Hk; [reflexivity|].
  destruct (String.eqb_spec k k') as [->|_].
  - exfalso. apply Hk. now left.
  - apply IH. intros Hin. apply Hk. now right.
Qed.

Lemma set_app_fresh (k : string) (v : V) (d e : OrderedDict.t V) :
  ~ In k (OrderedDict.keys d) ->
  OrderedDict.set k v (d ++ e) = d ++ OrderedDict.set k v e.
Proof.
  induction d as [|[k' v'] d IH]; simpl; intros Hk; [reflexivity|].
  destruct (String.eqb_spec k k') as [->|_].
  - exfalso. apply Hk. now left.
  - f_equal. apply IH. intros Hin. apply Hk. now right.
Qed.

Lemma set_fresh (k : string) (v : V) (d : OrderedDict.t V) :
  ~ In k (OrderedDict.keys d) ->
  OrderedDict.set k v d = d ++ [(k, v)].
Proof.
  intros Hk. rewrite <- (app_nil_r d) at 1.
  now rewrite set_app_fresh.
Qed.

Lemma keys_app (d e : OrderedDict.t V) :
  OrderedDict.keys (d ++ e) = OrderedDict.keys d ++ OrderedDict.keys e.
Proof. apply map_app. Qed.

(** A loop that assigns some of the items of [l], under keys that are
    new and pairwise distinct, appends them in order. *)
Lemma fold_set_fresh {A : Type}
    (step : OrderedDict.t V -> string * A -> OrderedDict.t V)
    (keep : string * A -> bool) (val : string * A -> V)
    (Hstep : forall acc it,
        step acc it
        = if keep it then OrderedDict.set (fst it) (val it) acc else acc)
    (l : list (string * A)) :
  forall acc : OrderedDict.t V,
    NoDup (OrderedDict.keys acc ++ map fst l) ->
    fold_left step l acc
    = acc ++ map (fun it => (fst it, val it)) (filter keep l).
Proof.
  induction l as [|it l IH]; intros acc Hnd; simpl.
  - now rewrite app_nil_r.
  - rewrite Hstep.
    assert (Hfresh : ~ In (fst it) (OrderedDict.keys acc)).
    { intros Hin. simpl in Hnd. apply NoDup_remove_2 in Hnd.
      apply Hnd. apply in_or_app. now left. }
    assert (Htail : NoDup (OrderedDict.keys acc ++ map fst l)).
    { simpl in Hnd. now apply NoDup_remove_1 in Hnd. }
    destruct (keep it).
    + rewrite IH.
      * rewrite set_fresh by exact Hfresh. simpl.
        now rewrite <- app_assoc.
      * rewrite set_fresh by exact Hfresh.
        rewrite keys_app. simpl. rewrite <- app_assoc. exact Hnd.
    + now apply IH.
Qed.

Lemma filter_all {A : Type} (l : list A) : filter (fun _ => true) l = l.
Proof. induction l; simpl; congruence. Qed.

Lemma dict_of_items_wf (d : OrderedDict.t V) :
  OrderedDict.wf d -> dict_of_items d = d.
Proof.
  intros Hwf. unfold dict_of_items, OrderedDict.update.
  rewrite (fold_set_fresh _ (fun _ => true) snd) by (simpl; auto).
  simpl. rewrite filter_all.
  induction d as [|[k v] d IH]; simpl; [reflexivity|].
  f_equal. apply IH. now inversion Hwf.
Qed.

Lemma update_fresh (d e : OrderedDict.t V) :
  NoDup (OrderedDict.keys d ++ OrderedDict.keys e) ->
  OrderedDict.update d e = d ++ e.
Proof.
  intros Hnd. unfold OrderedDict.update.
  rewrite (fold_set_fresh _ (fun _ => true) snd) by (simpl; auto).
  rewrite filter_all. f_equal.
  clear Hnd. induction e as [|[k v] e IH]; simpl; congruence.
Qed.

End DictFacts.

(** ** The seasonal dimension mapper *)

Lemma len_lt_1 {V : Type} (d : OrderedDict.t V) :
  (OrderedDict.len d <? 1) = true <-> d = [].
Proof.
  unfold OrderedDict.len. rewrite Z.ltb_lt.
  destruct d; simpl; split; intros H; try reflexivity; try discriminate; lia.
Qed.

(** C8. [season_config_to_model_dims] returns [None] exactly when the
    configuration is [None] or has no period. Otherwise it returns a
    mapping with one entry per period, under the period names and in the
    order of the configuration; the dimension of a period is twice its
    resolution when the type is ["fourier"], its resolution otherwise. *)
Theorem season_config_to_model_dims_spec (season_config : option SeasonConfig) :
  (season_config_to_model_dims season_config = None
   <-> season_config = None
       \/ exists cfg, season_config = Some cfg /\ periods cfg = [])
  /\ forall cfg,
      season_config = Some cfg ->
      OrderedDict.wf (periods cfg) ->
      periods cfg <> [] ->
      exists dims,
        season_config_to_model_dims season_config = Some dims
        /\ dims = map (fun it => (fst it, period_dim (type cfg) (snd it)))
                      (periods cfg)
        /\ OrderedDict.keys dims = OrderedDict.keys (periods cfg)
        /\ List.length dims = List.length (periods cfg).
Proof.
  split.
  - destruct season_config as [cfg|]; simpl.
    + destruct (OrderedDict.len (periods cfg) <? 1) eqn:Hlen.
      * apply len_lt_1 in Hlen. split; [|reflexivity].
        intros _. right. now exists cfg.
      * split; [discriminate|].
        intros [Hnone|[cfg' [Hcfg Hnil]]]; [discriminate|].
        injection Hcfg as <-. apply len_lt_1 in Hnil. congruence.
    + split; [now left | reflexivity].
  - intros cfg -> Hwf Hne. simpl.
    destruct (OrderedDict.len (periods cfg) <? 1) eqn:Hlen.
    { apply len_lt_1 in Hlen. contradiction. }
    eexists. split; [reflexivity|].
    unfold OrderedDict.items.
    rewrite (fold_set_fresh _ (fun _ => true)
               (fun it => period_dim (type cfg) (snd it))).
    + rewrite filter_all. simpl. split; [reflexivity|]. split.
      * unfold OrderedDict.keys. rewrite map_map. reflexivity.
      * now rewrite length_map.
    + intros acc [name period]. reflexivity.
    + exact Hwf.
Qed.

Lemma season_config_to_model_dims_witness :
  exists dims,
    season_config_to_model_dims (Some fourier_yearly_weekly) = Some dims
    /\ dims = [("yearly", 12); ("weekly", 8)]
    /\ OrderedDict.keys dims = ["yearly"; "weekly"]
    /\ List.length dims = 2%nat.
Proof.
  apply (proj2 (season_config_to_model_dims_spec (Some fourier_yearly_weekly))
           fourier_yearly_weekly).
  - reflexivity.
  - unfold OrderedDict.wf. simpl.
    repeat constructor; simpl; intuition discriminate.
  - discriminate.
Defined.

(** ** Date series: smallest and largest date, gaps, overflow *)

Lemma fold_min_spec (rest : list Z) :
  forall x,
    In (fold_left Z.min rest x) (x :: rest)
    /\ (forall d, In d (x :: rest) -> fold_left Z.min rest x <= d).
Proof.
  induction rest as [|y rest IH]; intros x; simpl.
  - split; [now left|]. intros d [<-|[]]. lia.
  - destruct (IH (Z.min x y)) as [Hin Hle]. split.
    + destruct Hin as [Heq|Hin]; [|now right; right].
      rewrite <- Heq. destruct (Z.min_spec x y) as [[_ ->]|[_ ->]]; tauto.
    + intros d [<-|[<-|Hd]].
      * specialize (Hle (Z.min x y) (or_introl eq_refl)). lia.
      * specialize (Hle (Z.min x y) (or_introl eq_refl)). lia.
      * apply Hle. now right.
Qed.

Lemma fold_max_spec (rest : list Z) :
  forall x,
    In (fold_left Z.max rest x) (x :: rest)
    /\ (forall d, In d (x :: rest) -> d <= fold_left Z.max rest x).
Proof.
  induction rest as [|y rest IH]; intros x; simpl.
  - split; [now left|]. intros d [<-|[]]. lia.
  - destruct (IH (Z.max x y)) as [Hin Hle]. split.
    + destruct Hin as [Heq|Hin]; [|now right; right].
      rewrite <- Heq. destruct (Z.max_spec x y) as [[_ ->]|[_ ->]]; tauto.
    + intros d [<-|[<-|Hd]].
      * specialize (Hle (Z.max x y) (or_introl eq_refl)). lia.
      * specialize (Hle (Z.max x y) (or_introl eq_refl)). lia.
      * apply Hle. now right.
Qed.

Lemma series_min_spec (s : list Z) (m : Z) :
  series_min s = Some m -> In m s /\ forall d, In d s -> m <= d.
Proof.
  destruct s as [|x rest]; simpl; [discriminate|].
  intros H. injection H as <-. apply fold_min_spec.
Qed.

Lemma series_max_spec (s : list Z) (m : Z) :
  series_max s = Some m -> In m s /\ forall d, In d s -> d <= m.
Proof.
  destruct s as [|x rest]; simpl; [discriminate|].
  intros H. injection H as <-. apply fold_max_spec.
Qed.

Lemma series_min_some (s : list Z) : s <> [] -> exists m, series_min s = Some m.
Proof. destruct s; [contradiction|]. intros _. eexists. reflexivity. Qed.

Lemma series_max_some (s : list Z) : s <> [] -> exists m, series_max s = Some m.
Proof. destruct s; [contradiction|]. intros _. eexists. reflexivity. Qed.

Lemma series_min_unique (s : list Z) (m : Z) :
  In m s -> (forall d, In d s -> m <= d) -> series_min s = Some m.
Proof.
  intros Hin Hle. destruct (series_min_some s) as [m' Hm'].
  { intros ->. contradiction. }
  destruct (series_min_spec _ _ Hm') as [Hin' Hle'].
  rewrite Hm'. f_equal. specialize (Hle _ Hin'). specialize (Hle' _ Hin).
  lia.
Qed.

Lemma series_max_unique (s : list Z) (m : Z) :
  In m s -> (forall d, In d s -> d <= m) -> series_max s = Some m.
Proof.
  intros Hin Hle. destruct (series_max_some s) as [m' Hm'].
  { intros ->. contradiction. }
  destruct (series_max_spec _ _ Hm') as [Hin' Hle'].
  rewrite Hm'. f_equal. specialize (Hle _ Hin'). specialize (Hle' _ Hin).
  lia.
Qed.

Lemma series_min_same_elements (s s' : list Z) :
  (forall d, In d s <-> In d s') -> series_min s = series_min s'.
Proof.
  intros Hsame. destruct (series_min s) as [m|] eqn:Hm.
  - destruct (series_min_spec _ _ Hm) as [Hin Hle]. symmetry.
    apply series_min_unique; [now apply Hsame|].
    intros d Hd. apply Hle. now apply Hsame.
  - destruct s as [|x rest]; [|discriminate].
    destruct s' as [|y rest']; [reflexivity|].
    exfalso. apply (Hsame y). now left.
Qed.

Lemma series_max_same_elements (s s' : list Z) :
  (forall d, In d s <-> In d s') -> series_max s = series_max s'.
Proof.
  intros Hsame. destruct (series_max s) as [m|] eqn:Hm.
  - destruct (series_max_spec _ _ Hm) as [Hin Hle]. symmetry.
    apply series_max_unique; [now apply Hsame|].
    intros d Hd. apply Hle. now apply Hsame.
  - destruct s as [|x rest]; [|discriminate].
    destruct s' as [|y rest']; [reflexivity|].
    exfalso. apply (Hsame y). now left.
Qed.

Lemma td_ge_spec (a : option Z) (b : Z) :
  td_ge a b = true <-> exists g, a = Some g /\ b <= g.
Proof.
  destruct a as [x|]; simpl.
  - rewrite Z.leb_le. split.
    + intros H. now exists x.
    + intros [g [Heq Hle]]. now injection Heq as ->.
  - split; [discriminate|]. intros [g [Heq _]]. discriminate.
Qed.

(** The span of a series that is not empty. *)
Lemma span_of_spec (dates : list Z) :
  dates <> [] ->
  exists first last,
    series_min dates = Some first /\ series_max dates = Some last
    /\ span_of dates = Some (last - first)
    /\ In first dates /\ In last dates
    /\ forall d, In d dates -> first <= d <= last.
Proof.
  intros Hne.
  destruct (series_min_some dates Hne) as [first Hmin].
  destruct (series_max_some dates Hne) as [last Hmax].
  destruct (series_min_spec _ _ Hmin) as [Hfin Hfle].
  destruct (series_max_spec _ _ Hmax) as [Hlin Hlle].
  exists first, last. unfold span_of. rewrite Hmin, Hmax.
  repeat split; try assumption; [now apply Hfle | now apply Hlle].
Qed.

Lemma Timedelta_of_fits (ns : Z) :
  Z.abs ns <= Timedelta_max -> Timedelta_of ns = inr ns.
Proof.
  intros H. unfold Timedelta_of. apply Z.leb_le in H. now rewrite H.
Qed.

Lemma Timedelta_of_error (ns : Z) (e : exn) :
  Timedelta_of ns = inl e -> e = OverflowError /\ Timedelta_max < Z.abs ns.
Proof.
  unfold Timedelta_of. destruct (Z.abs ns <=? Timedelta_max) eqn:H;
    [discriminate|].
  apply Z.leb_gt in H. intros Heq. injection Heq as <-. now split.
Qed.

(** Dates that lie within a span a timedelta can hold have differences
    that a timedelta can hold. *)
Lemma diff_from_fits (lo hi : Z) (s : list Z) :
  hi - lo <= Timedelta_max ->
  (forall d, In d s -> lo <= d <= hi) ->
  forall prev,
    lo <= prev <= hi ->
    diff_from prev s = inr (map Some (gaps_from prev s)).
Proof.
  intros Hspan. induction s as [|x rest IH]; intros Hall prev Hprev;
    [reflexivity|].
  cbn [diff_from gaps_from map].
  assert (Hx : lo <= x <= hi) by (apply Hall; now left).
  rewrite Timedelta_of_fits by lia.
  rewrite IH; [reflexivity| |exact Hx].
  intros d Hd. apply Hall. now right.
Qed.

Lemma diff_from_error (s : list Z) :
  forall prev e, diff_from prev s = inl e -> e = OverflowError.
Proof.
  induction s as [|x rest IH]; intros prev e; cbn [diff_from];
    [discriminate|].
  destruct (Timedelta_of (x - prev)) as [e'|d] eqn:Hd.
  - intros H. injection H as <-. now destruct (Timedelta_of_error _ _ Hd).
  - destruct (diff_from x rest) as [e'|ds] eqn:Hrest; [|discriminate].
    intros H. injection H as <-. now apply (IH x).
Qed.

Lemma dropna_nonzero_some (l : list Z) :
  dropna (filter is_nonzero (map Some l))
  = filter (fun g => negb (g =? 0)) l.
Proof.
  induction l as [|g l IH]; simpl; [reflexivity|].
  destruct (g =? 0); simpl; now rewrite IH.
Qed.

Lemma min_dt_error (dates : list Z) (e : exn) :
  min_dt dates = inl e -> e = OverflowError.
Proof.
  unfold min_dt, series_diff. destruct dates as [|x rest]; [discriminate|].
  destruct (diff_from x rest) as [e'|ds] eqn:Hd; [|discriminate].
  intros H. injection H as <-. now apply (diff_from_error rest x).
Qed.

(** The minimal gap of the code when the span fits: the smallest gap
    between consecutive rows that is not zero. *)
Lemma min_dt_fits (dates : list Z) :
  span_fits dates = true -> min_dt dates = inr (row_gap dates).
Proof.
  intros Hfit. destruct dates as [|x rest]; [reflexivity|].
  destruct (span_of_spec (x :: rest)) as
    [first [last [_ [_ [Hspan [_ [_ Hall]]]]]]]; [discriminate|].
  unfold span_fits in Hfit. rewrite Hspan in Hfit. apply Z.leb_le in Hfit.
  unfold min_dt, series_diff, row_gap. cbn [gaps].
  rewrite (diff_from_fits first last rest Hfit).
  - cbn [filter is_nonzero dropna]. now rewrite dropna_nonzero_some.
  - intros d Hd. apply Hall. now right.
  - apply Hall. now left.
Qed.

Lemma ts_sub_span (dates : list Z) :
  ts_sub (series_max dates) (series_min dates)
  = if span_fits dates then inr (span_of dates) else inl OverflowError.
Proof.
  destruct dates as [|x rest]; [reflexivity|].
  destruct (span_of_spec (x :: rest)) as
    [first [last [Hmin [Hmax [Hspan [Hfin [_ Hall]]]]]]]; [discriminate|].
  unfold span_fits. rewrite Hspan, Hmin, Hmax. cbn [ts_sub].
  unfold Timedelta_of.
  assert (Habs : Z.abs (last - first) = last - first).
  { apply Z.abs_eq. specialize (Hall first Hfin). lia. }
  rewrite Habs. now destruct (last - first <=? Timedelta_max).
Qed.

(** Lines 136 to 144 as a whole: the flags when the span fits, and
    [OverflowError] when it does not. *)
Lemma auto_disable_cases (dates : list Z) :
  auto_disable dates
  = if span_fits dates then inr (expected_flags dates)
    else inl OverflowError.
Proof.
  unfold auto_disable, span_below. rewrite ts_sub_span.
  destruct (span_fits dates) eqn:Hfit.
  - now rewrite (min_dt_fits dates Hfit).
  - destruct (min_dt dates) as [e|gap] eqn:Hgap; [|reflexivity].
    now rewrite (min_dt_error _ _ Hgap).
Qed.

Lemma auto_disable_fits (dates : list Z) :
  span_fits dates = true -> auto_disable dates = inr (expected_flags dates).
Proof. intros Hfit. now rewrite auto_disable_cases, Hfit. Qed.

Lemma auto_disable_returned (dates : list Z) (flags : OrderedDict.t bool) :
  auto_disable dates = inr flags ->
  span_fits dates = true /\ flags = expected_flags dates.
Proof.
  rewrite auto_disable_cases. destruct (span_fits dates); [|discriminate].
  intros H. injection H as <-. now split.
Qed.

Lemma auto_disable_keys (dates : list Z) (flags : OrderedDict.t bool) :
  auto_disable dates = inr flags -> OrderedDict.keys flags = builtin_names.
Proof.
  intros H. now destruct (auto_disable_returned _ _ H) as [_ ->].
Qed.

(** ** Gaps of ascending, repeated and shifted dates *)

Lemma ascending_gaps_nonneg (s : list Z) :
  forall prev,
    ascending_from prev s = true ->
    forall g, In g (gaps_from prev s) -> 0 <= g.
Proof.
  induction s as [|x rest IH]; intros prev Hasc g Hin; simpl in *;
    [contradiction|].
  apply andb_true_iff in Hasc. destruct Hasc as [Hle Hasc].
  apply Z.leb_le in Hle.
  destruct Hin as [<-|Hin]; [lia|]. now apply (IH x).
Qed.

Lemma filter_nonzero_positive (l : list Z) :
  (forall g, In g l -> 0 <= g) ->
  filter (fun g => negb (g =? 0)) l = filter (fun g => 0 <? g) l.
Proof.
  intros Hpos. apply filter_ext_in. intros g Hin.
  specialize (Hpos g Hin).
  destruct (Z.eqb_spec g 0) as [->|Hne]; simpl; symmetry.
  - reflexivity.
  - apply Z.ltb_lt. lia.
Qed.

Lemma sort_dates_ascending (s : list Z) :
  is_ascending s = true -> sort_dates s = s.
Proof.
  induction s as [|x rest IH]; intros Hasc; [reflexivity|].
  simpl in *. destruct rest as [|y rest]; [reflexivity|].
  cbn [ascending_from] in Hasc. apply andb_true_iff in Hasc.
  destruct Hasc as [Hle Hasc].
  rewrite IH by exact Hasc. simpl. now rewrite Hle.
Qed.

Lemma row_gap_ascending (dates : list Z) :
  is_ascending dates = true -> row_gap dates = min_gap_spec dates.
Proof.
  intros Hasc. unfold row_gap, min_gap_spec.
  rewrite sort_dates_ascending by exact Hasc.
  rewrite filter_nonzero_positive; [reflexivity|].
  destruct dates as [|x rest]; simpl; [contradiction|].
  now apply ascending_gaps_nonneg.
Qed.

(** In a series whose gaps are all zero, all dates are equal. *)
Lemma gaps_zero_constant (s : list Z) :
  forall prev,
    filter (fun g => negb (g =? 0)) (gaps_from prev s) = [] ->
    forall d, In d s -> d = prev.
Proof.
  induction s as [|x rest IH]; intros prev Hnil d Hin; simpl in *;
    [contradiction|].
  destruct (Z.eqb_spec (x - prev) 0) as [Hz|Hnz]; simpl in Hnil;
    [|discriminate].
  assert (x = prev) by lia. subst x.
  destruct Hin as [<-|Hin]; [reflexivity|]. now apply (IH prev).
Qed.

Lemma row_gap_distinct (dates : list Z) :
  (exists a b, In a dates /\ In b dates /\ a <> b) ->
  exists g,
    row_gap dates = Some g /\ g <> 0 /\ In g (gaps dates)
    /\ forall g', In g' (gaps dates) -> g' <> 0 -> g <= g'.
Proof.
  intros [a [b [Ha [Hb Hab]]]]. unfold row_gap.
  destruct (filter (fun g => negb (g =? 0)) (gaps dates)) as [|g0 l] eqn:Hf.
  - exfalso. destruct dates as [|x rest]; [contradiction|].
    simpl in Hf. apply Hab.
    assert (Hall : forall d, In d (x :: rest) -> d = x).
    { intros d [<-|Hd]; [reflexivity|].
      now apply (gaps_zero_constant rest x Hf). }
    now rewrite (Hall a Ha), (Hall b Hb).
  - destruct (series_min_some (g0 :: l)) as [m Hm]; [discriminate|].
    exists m. split; [exact Hm|].
    destruct (series_min_spec _ _ Hm) as [Hin Hle].
    rewrite <- Hf in Hin, Hle.
    apply filter_In in Hin. destruct Hin as [Hin Hnz].
    apply negb_true_iff, Z.eqb_neq in Hnz.
    split; [exact Hnz|]. split; [exact Hin|].
    intros g Hg Hgnz. apply Hle. apply filter_In. split; [exact Hg|].
    now apply negb_true_iff, Z.eqb_neq.
Qed.

(** ** The auto-seasonality resolver: resolution and pruning *)

Lemma outcome_bind_ok {L A B : Type} (m : M L A) (k : A -> M L B) (a : A) :
  outcome m = inr a -> outcome (bind m k) = outcome (k a).
Proof.
  destruct m as [out [e|a']]; unfold outcome; simpl; intros H;
    [discriminate|].
  injection H as ->. now destruct (k a).
Qed.

Lemma outcome_bind_raise {L A B : Type} (m : M L A) (k : A -> M L B)
    (e : exn) :
  outcome m = inl e -> outcome (bind m k) = inl e.
Proof.
  destruct m as [out [e'|a]]; unfold outcome; simpl; intros H.
  - now injection H as ->.
  - discriminate.
Qed.

Lemma bind_ext {L A B : Type} (m : M L A) (k k' : A -> M L B) :
  (forall a, k a = k' a) -> bind m k = bind m k'.
Proof.
  intros Hk. destruct m as [out [e|a]]; simpl; [reflexivity|].
  now rewrite Hk.
Qed.

Lemma is_builtin_In (name : string) :
  is_builtin name = true <-> In name builtin_names.
Proof.
  unfold is_builtin. rewrite existsb_exists. split.
  - intros [x [Hin Heq]]. apply String.eqb_eq in Heq. now subst.
  - intros Hin. exists name. split; [assumption|apply String.eqb_refl].
Qed.

Lemma get_keys {V : Type} (k : string) (d : OrderedDict.t V) :
  In k (OrderedDict.keys d) <-> exists v, OrderedDict.get k d = Some v.
Proof.
  induction d as [|[k' v'] d IH]; simpl.
  - split; [contradiction|]. intros [v H]. discriminate.
  - destruct (String.eqb_spec k k') as [->|Hne].
    + split; [|now left]. intros _. now exists v'.
    + rewrite <- IH. split; [|now right].
      intros [Heq|Hin]; [congruence|assumption].
Qed.

Lemma flags_get (flags : OrderedDict.t bool) (name : string) :
  OrderedDict.keys flags = builtin_names ->
  In name builtin_names ->
  OrderedDict.get name flags = Some (flag_of flags name).
Proof.
  intros Hkeys Hin. rewrite <- Hkeys in Hin.
  apply get_keys in Hin. destruct Hin as [b Hb].
  unfold flag_of. now rewrite Hb.
Qed.

Lemma flags_get_custom (flags : OrderedDict.t bool) (name : string) :
  OrderedDict.keys flags = builtin_names ->
  ~ In name builtin_names ->
  OrderedDict.get name flags = None.
Proof.
  intros Hkeys Hnin. destruct (OrderedDict.get name flags) eqn:Hget;
    [|reflexivity].
  exfalso. apply Hnin. rewrite <- Hkeys.
  apply get_keys. now exists b.
Qed.

Lemma resolve_period_ok (flags : OrderedDict.t bool) (name : string)
    (p : Period) :
  OrderedDict.keys flags = builtin_names ->
  is_custom_auto (name, p) = false ->
  outcome (resolve_period flags name p)
  = inr (resolution_rule (flag_of flags name) (arg p) (resolution p)).
Proof.
  intros Hkeys.
  unfold is_custom_auto, resolve_period, resolution_rule. cbn [fst snd].
  destruct (arg p) as [|[|]|z|q]; intros Hc; try reflexivity.
  apply negb_false_iff, is_builtin_In in Hc.
  rewrite (flags_get flags name Hkeys Hc).
  now destruct (flag_of flags name).
Qed.

Lemma resolve_period_raise (flags : OrderedDict.t bool) (name : string)
    (p : Period) :
  OrderedDict.keys flags = builtin_names ->
  is_custom_auto (name, p) = true ->
  outcome (resolve_period flags name p) = inl (KeyError name).
Proof.
  intros Hkeys.
  unfold is_custom_auto, resolve_period. cbn [fst snd].
  destruct (arg p) as [|[|]|z|q]; intros Hc; try discriminate.
  apply negb_true_iff in Hc.
  rewrite flags_get_custom; [reflexivity|exact Hkeys|].
  intros Hin. apply is_builtin_In in Hin. congruence.
Qed.

Lemma NoDup_keys_head {V : Type} (done : OrderedDict.t V) (k : string)
    (v : V) (todo : OrderedDict.t V) :
  NoDup (OrderedDict.keys (done ++ (k, v) :: todo)) ->
  ~ In k (OrderedDict.keys done).
Proof.
  rewrite keys_app. simpl. intros Hnd Hin.
  apply NoDup_remove_2 in Hnd. apply Hnd. apply in_or_app. now left.
Qed.

(** One turn of the first loop on the period at the head of what is left
    to do. *)
Lemma resolve_loop_step (flags : OrderedDict.t bool)
    (done : OrderedDict.t Period) (name : string) (p : Period)
    (todo : OrderedDict.t Period) :
  NoDup (OrderedDict.keys (done ++ (name, p) :: todo)) ->
  resolve_loop flags (OrderedDict.keys ((name, p) :: todo))
    (done ++ (name, p) :: todo)
  = bind (resolve_period flags name p)
      (fun r =>
         resolve_loop flags (OrderedDict.keys todo)
           ((done ++ [(name, mkPeriod (arg p) r)]) ++ todo)).
Proof.
  intros Hnd. pose proof (NoDup_keys_head _ _ _ _ Hnd) as Hfresh.
  simpl. rewrite get_app_fresh by exact Hfresh.
  simpl. rewrite String.eqb_refl.
  apply bind_ext. intros r. f_equal.
  rewrite set_app_fresh by exact Hfresh.
  simpl. rewrite String.eqb_refl. now rewrite <- app_assoc.
Qed.

Lemma NoDup_keys_shift (done : OrderedDict.t Period) (name : string)
    (p p' : Period) (todo : OrderedDict.t Period) :
  NoDup (OrderedDict.keys (done ++ (name, p) :: todo)) ->
  NoDup (OrderedDict.keys ((done ++ [(name, p')]) ++ todo)).
Proof. now rewrite <- app_assoc, !keys_app. Qed.

(** The first loop on a configuration with a period on ['auto'] under a
    name without a flag: the lookup of the first such name raises. *)
Lemma resolve_loop_raise (flags : OrderedDict.t bool)
    (todo : OrderedDict.t Period) :
  OrderedDict.keys flags = builtin_names ->
  forall (done : OrderedDict.t Period) (k : string) (pk : Period),
    NoDup (OrderedDict.keys (done ++ todo)) ->
    find is_custom_auto todo = Some (k, pk) ->
    outcome (resolve_loop flags (OrderedDict.keys todo) (done ++ todo))
    = inl (KeyError k).
Proof.
  intros Hkeys.
  induction todo as [|[name p] todo IH]; intros done k pk Hnd Hfind.
  - discriminate.
  - rewrite resolve_loop_step by exact Hnd.
    cbn [find] in Hfind.
    destruct (is_custom_auto (name, p)) eqn:Hhead.
    + injection Hfind as -> ->.
      apply outcome_bind_raise. now apply resolve_period_raise.
    + rewrite (outcome_bind_ok _ _ _
                 (resolve_period_ok flags name p Hkeys Hhead)).
      apply (IH _ k pk); [|exact Hfind].
      now apply (NoDup_keys_shift done name p).
Qed.

Lemma len_gt_0 {V : Type} (d : OrderedDict.t V) :
  (OrderedDict.len d >? 0) = match d with [] => false | _ :: _ => true end.
Proof.
  unfold OrderedDict.len. destruct d; [reflexivity|].
  apply Z.gtb_gt. simpl List.length. lia.
Qed.

Lemma rebuild_periods_filter (ps : OrderedDict.t Period) :
  OrderedDict.wf ps -> rebuild_periods ps = filter is_active ps.
Proof.
  intros Hwf. unfold rebuild_periods, OrderedDict.items.
  rewrite (fold_set_fresh _ is_active snd).
  - simpl. induction (filter is_active ps) as [|[k v] l IH]; simpl;
      congruence.
  - intros acc [name period]. unfold is_active. cbn [fst snd].
    now rewrite Z.gtb_ltb.
  - exact Hwf.
Qed.

Lemma resolved_keys (flags : OrderedDict.t bool) (ps : OrderedDict.t Period) :
  OrderedDict.keys (map (resolved_entry flags) ps) = OrderedDict.keys ps.
Proof. unfold OrderedDict.keys. now rewrite map_map. Qed.

Lemma is_custom_auto_spec (name : string) (p : Period) :
  is_custom_auto (name, p) = true
  <-> arg p = ArgAuto /\ ~ In name builtin_names.
Proof.
  unfold is_custom_auto. cbn [fst snd]. rewrite <- is_builtin_In.
  destruct (arg p) as [|b|z|q].
  - rewrite negb_true_iff, not_true_iff_false. tauto.
  - split; [discriminate|]. intros [H _]. discriminate.
  - split; [discriminate|]. intros [H _]. discriminate.
  - split; [discriminate|]. intros [H _]. discriminate.
Qed.

Lemma resolve_period_run (flags : OrderedDict.t bool) (name : string)
    (p : Period) :
  OrderedDict.keys flags = builtin_names ->
  is_custom_auto (name, p) = false ->
  resolve_period flags name p
  = (period_messages flags (name, p),
     inr (resolution_rule (flag_of flags name) (arg p) (resolution p))).
Proof.
  intros Hkeys.
  unfold is_custom_auto, resolve_period, resolution_rule, period_messages.
  cbn [fst snd].
  destruct (arg p) as [|[|]|z|q]; intros Hc; try reflexivity.
  apply negb_false_iff, is_builtin_In in Hc.
  rewrite (flags_get flags name Hkeys Hc).
  now destruct (flag_of flags name).
Qed.

Lemma bind_run {L A B : Type} (m : M L A) (k : A -> M L B)
    (out : list L) (a : A) (out' : list L) (r : exn + B) :
  m = (out, inr a) -> k a = (out', r) -> bind m k = (out ++ out', r).
Proof. intros -> Hk. simpl. now rewrite Hk. Qed.

Lemma resolve_loop_run (flags : OrderedDict.t bool)
    (todo : OrderedDict.t Period) :
  OrderedDict.keys flags = builtin_names ->
  forall done : OrderedDict.t Period,
    NoDup (OrderedDict.keys (done ++ todo)) ->
    forallb (fun it => negb (is_custom_auto it)) todo = true ->
    resolve_loop flags (OrderedDict.keys todo) (done ++ todo)
    = (flat_map (period_messages flags) todo,
       inr (done ++ map (resolved_entry flags) todo)).
Proof.
  intros Hkeys.
  induction todo as [|[name p] todo IH]; intros done Hnd Hall.
  - simpl. now rewrite app_nil_r.
  - rewrite resolve_loop_step by exact Hnd.
    cbn [forallb] in Hall. apply andb_true_iff in Hall.
    destruct Hall as [Hhead Hall]. apply negb_true_iff in Hhead.
    cbn [flat_map map].
    apply bind_run with (1 := resolve_period_run flags name p Hkeys Hhead).
    rewrite IH; [|now apply (NoDup_keys_shift done name p)|exact Hall].
    now rewrite <- app_assoc.
Qed.

Lemma auto_names_builtin_forallb (ps : OrderedDict.t Period) :
  auto_names_builtin ps ->
  forallb (fun it => negb (is_custom_auto it)) ps = true.
Proof.
  intros Hauto. apply forallb_forall. intros [name p] Hin.
  apply negb_true_iff.
  destruct (is_custom_auto (name, p)) eqn:Hc; [|reflexivity].
  apply is_custom_auto_spec in Hc. destruct Hc as [Ha Hn].
  exfalso. apply Hn. now apply (Hauto name p).
Qed.

(** The resolver once the flags are there. *)
Lemma set_auto_seasonalities_flags (dates : list Z) (cfg : SeasonConfig)
    (verbose : bool) :
  set_auto_seasonalities dates cfg verbose
  = match auto_disable dates with
    | inl err => ([], inl err)
    | inr flags =>
        bind (resolve_loop flags (OrderedDict.keys (periods cfg))
                (periods cfg))
          (fun resolved =>
             let new_cfg :=
               mkSeasonConfig (type cfg) (rebuild_periods resolved) in
             bind (if verbose then print (ShowConfig new_cfg) else ret tt)
               (fun _ =>
                  ret (if OrderedDict.len (periods new_cfg) >? 0
                       then Some new_cfg else None)))
    end.
Proof.
  unfold set_auto_seasonalities, lift.
  destruct (auto_disable dates) as [err|flags]; [reflexivity|].
  cbn [bind]. now destruct (bind _ _).
Qed.

(** The whole run of the resolver on a configuration whose periods on
    ['auto'] all have a flag. *)
Lemma set_auto_seasonalities_run (dates : list Z) (cfg : SeasonConfig)
    (verbose : bool) (flags : OrderedDict.t bool) :
  auto_disable dates = inr flags ->
  OrderedDict.wf (periods cfg) ->
  auto_names_builtin (periods cfg) ->
  let kept := kept_periods flags (periods cfg) in
  let new_cfg := mkSeasonConfig (type cfg) kept in
  set_auto_seasonalities dates cfg verbose
  = (flat_map (period_messages flags) (periods cfg)
     ++ (if verbose then [ShowConfig new_cfg] else []),
     inr (match kept with [] => None | _ :: _ => Some new_cfg end)).
Proof.
  intros Hflags Hwf Hauto kept new_cfg.
  pose proof (auto_disable_keys _ _ Hflags) as Hkeys.
  rewrite set_auto_seasonalities_flags, Hflags.
  pose proof (resolve_loop_run flags (periods cfg) Hkeys [] Hwf
                (auto_names_builtin_forallb _ Hauto)) as Hloop.
  cbn [app] in Hloop.
  apply bind_run with (1 := Hloop).
  rewrite rebuild_periods_filter
    by (unfold OrderedDict.wf; now rewrite resolved_keys).
  fold (kept_periods flags (periods cfg)). fold kept. fold new_cfg.
  cbn [periods]. rewrite len_gt_0.
  destruct verbose; destruct kept; reflexivity.
Qed.

(** The resolver on a configuration with a period on ['auto'] under a
    name without a flag. *)
Lemma set_auto_seasonalities_key_error (dates : list Z) (cfg : SeasonConfig)
    (verbose : bool) (flags : OrderedDict.t bool) (k : string)
    (pk : Period) :
  auto_disable dates = inr flags ->
  OrderedDict.wf (periods cfg) ->
  find is_custom_auto (periods cfg) = Some (k, pk) ->
  outcome (set_auto_seasonalities dates cfg verbose) = inl (KeyError k).
Proof.
  intros Hflags Hwf Hfind.
  pose proof (auto_disable_keys _ _ Hflags) as Hkeys.
  rewrite set_auto_seasonalities_flags, Hflags.
  apply outcome_bind_raise.
  exact (resolve_loop_raise flags (periods cfg) Hkeys [] k pk Hwf Hfind).
Qed.

(** C1. On dates whose span a timedelta can hold, and on a configuration
    whose periods on ['auto'] all bear one of the names with an
    auto-disable flag, [set_auto_seasonalities] resolves every period by
    the rule [resolution_rule]: ['auto'] gives 0 when the flag of the name
    is set and the default resolution otherwise, [True] the default
    resolution, [False] 0, a number its integer conversion. The periods
    are then rebuilt from exactly the entries whose resolution is
    positive, in their original order, and the result is [None] if and
    only if no period is left. *)
Theorem set_auto_seasonalities_resolves (dates : list Z)
    (cfg : SeasonConfig) (verbose : bool) :
  span_fits dates = true ->
  OrderedDict.wf (periods cfg) ->
  (forall name p,
      In (name, p) (periods cfg) -> arg p = ArgAuto ->
      In name builtin_names) ->
  exists flags,
    auto_disable dates = inr flags
    /\ let resolved := map (resolved_entry flags) (periods cfg) in
       let kept := filter is_active resolved in
       outcome (set_auto_seasonalities dates cfg verbose)
       = inr (match kept with
              | [] => None
              | _ :: _ => Some (mkSeasonConfig (type cfg) kept)
              end)
       /\ (outcome (set_auto_seasonalities dates cfg verbose) = inr None
           <-> kept = []).
Proof.
  intros Hfit Hwf Hauto.
  pose proof (auto_disable_fits dates Hfit) as Hflags.
  exists (expected_flags dates). split; [exact Hflags|].
  intros resolved kept.
  rewrite (set_auto_seasonalities_run dates cfg verbose _ Hflags Hwf Hauto).
  unfold outcome. cbn [snd].
  fold resolved. change (kept_periods (expected_flags dates) (periods cfg))
    with kept.
  split; [reflexivity|].
  destruct kept; split; intros H; try reflexivity; discriminate.
Qed.

Lemma set_auto_seasonalities_resolves_witness :
  exists flags,
    auto_disable three_years = inr flags
    /\ let resolved := map (resolved_entry flags) (periods mixed_config) in
       let kept := filter is_active resolved in
       outcome (set_auto_seasonalities three_years mixed_config false)
       = inr (match kept with
              | [] => None
              | _ :: _ => Some (mkSeasonConfig (type mixed_config) kept)
              end)
       /\ (outcome (set_auto_seasonalities three_years mixed_config false)
           = inr None
           <-> kept = []).
Proof.
  apply (set_auto_seasonalities_resolves three_years mixed_config false).
  - reflexivity.
  - unfold OrderedDict.wf. simpl.
    repeat constructor; simpl; intuition discriminate.
  - simpl. intros name p [H|[H|[H|[H|[]]]]] Ha;
      injection H as <- <-; simpl; try discriminate; tauto.
Defined.

(** ** The auto-seasonality resolver: names without a flag *)

Lemma find_split {A : Type} (f : A -> bool) (l : list A) (x : A) :
  find f l = Some x ->
  exists before after,
    l = before ++ x :: after
    /\ forall y, In y before -> f y = false.
Proof.
  induction l as [|y l IH]; simpl; [discriminate|].
  destruct (f y) eqn:Hy.
  - intros H. injection H as ->. exists [], l. split; [reflexivity|].
    intros z [].
  - intros H. destruct (IH H) as [before [after [-> Hb]]].
    exists (y :: before), after. split; [reflexivity|].
    intros z [<-|Hz]; [exact Hy | now apply Hb].
Qed.

(** C10. On dates whose span a timedelta can hold, when the configuration
    holds a period on ['auto'] whose name is none of ["yearly"],
    ["weekly"], ["daily"], [set_auto_seasonalities] raises [KeyError].
    The failing lookup of the auto-disable flag is the one of the first
    such period of the configuration: the periods before it have a flag
    when they are on ['auto'], and the given period is this one or comes
    after it. *)
Theorem set_auto_seasonalities_custom_auto (dates : list Z)
    (cfg : SeasonConfig) (verbose : bool) (name : string) (p : Period) :
  span_fits dates = true ->
  OrderedDict.wf (periods cfg) ->
  In (name, p) (periods cfg) ->
  arg p = ArgAuto ->
  ~ In name builtin_names ->
  exists before k pk after,
    periods cfg = before ++ (k, pk) :: after
    /\ Forall (fun it => arg (snd it) = ArgAuto -> In (fst it) builtin_names)
         before
    /\ arg pk = ArgAuto
    /\ ~ In k builtin_names
    /\ (k = name \/ In (name, p) after)
    /\ outcome (set_auto_seasonalities dates cfg verbose) = inl (KeyError k).
Proof.
  intros Hfit Hwf Hin Ha Hn.
  pose proof (auto_disable_fits dates Hfit) as Hflags.
  assert (Hc : is_custom_auto (name, p) = true)
    by now apply is_custom_auto_spec.
  destruct (find is_custom_auto (periods cfg)) as [[k pk]|] eqn:Hfind.
  - destruct (find_split _ _ _ Hfind) as [before [after [Hsplit Hbefore]]].
    pose proof (find_some _ _ Hfind) as [_ Hck].
    apply is_custom_auto_spec in Hck. destruct Hck as [Hak Hnk].
    exists before, k, pk, after.
    split; [exact Hsplit|]. split.
    { apply Forall_forall. intros [n' p'] Hin' Ha'. cbn [fst snd] in *.
      specialize (Hbefore _ Hin').
      destruct (in_dec String.string_dec n' builtin_names) as [Hb|Hb];
        [exact Hb|].
      assert (is_custom_auto (n', p') = true)
        by now apply is_custom_auto_spec.
      congruence. }
    split; [exact Hak|]. split; [exact Hnk|]. split.
    { rewrite Hsplit in Hin. apply in_app_or in Hin.
      destruct Hin as [Hin|[Heq|Hin]].
      - specialize (Hbefore _ Hin). congruence.
      - left. congruence.
      - now right. }
    exact (set_auto_seasonalities_key_error dates cfg verbose _ k pk
             Hflags Hwf Hfind).
  - exfalso. pose proof (find_none _ _ Hfind (name, p) Hin). congruence.
Qed.

Lemma set_auto_seasonalities_custom_auto_witness :
  exists before k pk after,
    periods custom_config = before ++ (k, pk) :: after
    /\ Forall (fun it => arg (snd it) = ArgAuto -> In (fst it) builtin_names)
         before
    /\ arg pk = ArgAuto
    /\ ~ In k builtin_names
    /\ (k = "monthly" \/ In ("monthly", mkPeriod ArgAuto 4) after)
    /\ outcome (set_auto_seasonalities three_years custom_config false)
       = inl (KeyError k).
Proof.
  apply (set_auto_seasonalities_custom_auto three_years custom_config false
           "monthly" (mkPeriod ArgAuto 4)).
  - reflexivity.
  - unfold OrderedDict.wf. simpl.
    repeat constructor; simpl; intuition discriminate.
  - simpl. tauto.
  - reflexivity.
  - simpl. intuition discriminate.
Defined.

(** ** The auto-seasonality resolver: span, minimal gap and flags *)

(** The claim as it is stated, with the minimal gap of the sorted dates,
    fails on dates that are not in ascending order: on a weekly series
    given from the latest date to the earliest the sorted dates are
    seven days apart, so the claim has weekly and daily seasonality
    disabled, and the code disables neither. *)
Lemma auto_disable_unsorted_counterexample :
  span_of weekly_descending = Some (Timedelta_days 1099)
  /\ min_gap_spec weekly_descending = Some (Timedelta_days 7)
  /\ flags_of (span_of weekly_descending) (min_gap_spec weekly_descending)
     = [("yearly", false); ("weekly", true); ("daily", true)]
  /\ auto_disable weekly_descending
     = inr [("yearly", false); ("weekly", false); ("daily", false)].
Proof. repeat split. Qed.

(** C3, amended. For dates that are not empty and whose span, the
    largest date minus the smallest, a timedelta can hold, the flags are:
    yearly if and only if [span < 730 days]; weekly if and only if
    [span < 14 days] or [min_gap >= 7 days]; daily if and only if
    [span < 2 days] or [min_gap >= 1 day]. Here [min_gap] is the smallest
    difference between consecutive dates in the order given that is not
    zero; for dates in ascending order it is the smallest strictly
    positive difference between consecutive sorted dates. No other name
    has a flag. *)
Theorem auto_disable_flags (dates : list Z) :
  dates <> [] ->
  span_fits dates = true ->
  exists first last yearly weekly daily,
    In first dates /\ In last dates
    /\ (forall d, In d dates -> first <= d <= last)
    /\ auto_disable dates
       = inr [("yearly", yearly); ("weekly", weekly); ("daily", daily)]
    /\ (yearly = true <-> last - first < Timedelta_days 730)
    /\ (weekly = true
        <-> last - first < Timedelta_days 14
            \/ exists min_gap,
                row_gap dates = Some min_gap /\ Timedelta_days 7 <= min_gap)
    /\ (daily = true
        <-> last - first < Timedelta_days 2
            \/ exists min_gap,
                row_gap dates = Some min_gap /\ Timedelta_days 1 <= min_gap)
    /\ (is_ascending dates = true -> row_gap dates = min_gap_spec dates).
Proof.
  intros Hne Hfit.
  destruct (span_of_spec dates Hne) as
    [first [last [_ [_ [Hspan [Hfin [Hlin Hall]]]]]]].
  exists first, last.
  rewrite (auto_disable_fits dates Hfit).
  unfold expected_flags, flags_of. rewrite Hspan. cbn [td_lt].
  do 3 eexists. split; [exact Hfin|]. split; [exact Hlin|].
  split; [exact Hall|]. split; [reflexivity|].
  split; [apply Z.ltb_lt|].
  split; [rewrite orb_true_iff, Z.ltb_lt, td_ge_spec; reflexivity|].
  split; [rewrite orb_true_iff, Z.ltb_lt, td_ge_spec; reflexivity|].
  apply row_gap_ascending.
Qed.

Lemma auto_disable_flags_witness :
  exists first last yearly weekly daily,
    In first ten_days /\ In last ten_days
    /\ (forall d, In d ten_days -> first <= d <= last)
    /\ auto_disable ten_days
       = inr [("yearly", yearly); ("weekly", weekly); ("daily", daily)]
    /\ (yearly = true <-> last - first < Timedelta_days 730)
    /\ (weekly = true
        <-> last - first < Timedelta_days 14
            \/ exists min_gap,
                row_gap ten_days = Some min_gap
                /\ Timedelta_days 7 <= min_gap)
    /\ (daily = true
        <-> last - first < Timedelta_days 2
            \/ exists min_gap,
                row_gap ten_days = Some min_gap
                /\ Timedelta_days 1 <= min_gap)
    /\ row_gap ten_days = min_gap_spec ten_days.
Proof.
  destruct (auto_disable_flags ten_days) as
    [first [last [yearly [weekly [daily
      [H1 [H2 [H3 [H4 [H5 [H6 [H7 H8]]]]]]]]]]]];
    [discriminate|reflexivity|].
  exists first, last, yearly, weekly, daily.
  repeat (split; [assumption|]). now apply H8.
Defined.

(** The claim as it is stated, without a condition on the order of the
    dates, fails: on the dates day 2, day 0, day 1 the code obtains minus
    two days, while the smallest positive gap of the sorted dates is one
    day. *)
Lemma min_dt_unsorted_counterexample :
  (exists a b, In a unsorted_dates /\ In b unsorted_dates /\ a <> b)
  /\ min_dt unsorted_dates = inr (Some (- Timedelta_days 2))
  /\ min_gap_spec unsorted_dates = Some (Timedelta_days 1)
  /\ min_dt unsorted_dates <> inr (min_gap_spec unsorted_dates).
Proof.
  split.
  - exists 0, (Timedelta_days 1). simpl. intuition discriminate.
  - split; [reflexivity|]. split; [reflexivity|]. discriminate.
Qed.

(** C2, amended. The resolver does not sort the dates: when their span
    is one a timedelta can hold, its minimal gap is the smallest non-zero
    difference between consecutive dates in the order given. On dates in
    ascending order this is the smallest strictly positive difference
    between consecutive sorted dates, zero gaps of repeated datestamps
    left out; with at least two distinct datestamps it exists and is
    positive. *)
Theorem min_dt_ascending (dates : list Z) :
  span_fits dates = true ->
  min_dt dates
  = inr (series_min (filter (fun g => negb (g =? 0)) (gaps dates)))
  /\ (is_ascending dates = true ->
      min_dt dates = inr (min_gap_spec dates)
      /\ ((exists a b, In a dates /\ In b dates /\ a <> b) ->
          exists min_gap,
            min_dt dates = inr (Some min_gap)
            /\ 0 < min_gap
            /\ In min_gap (gaps (sort_dates dates))
            /\ forall g,
                In g (gaps (sort_dates dates)) -> 0 < g -> min_gap <= g)).
Proof.
  intros Hfit. rewrite (min_dt_fits dates Hfit).
  split; [reflexivity|]. intros Hasc.
  split; [now rewrite row_gap_ascending|].
  intros Hdistinct.
  destruct (row_gap_distinct dates Hdistinct) as [g [Hg [Hnz [Hin Hle]]]].
  assert (Hnonneg : forall g', In g' (gaps dates) -> 0 <= g').
  { destruct dates as [|x rest]; simpl; [contradiction|].
    now apply ascending_gaps_nonneg. }
  rewrite sort_dates_ascending by exact Hasc.
  exists g. split; [now rewrite Hg|].
  specialize (Hnonneg g Hin) as Hg0.
  split; [lia|]. split; [exact Hin|].
  intros g' Hg' Hpos. apply Hle; [exact Hg'|lia].
Qed.

Lemma min_dt_ascending_witness :
  min_dt ten_days = inr (min_gap_spec ten_days)
  /\ exists min_gap,
      min_dt ten_days = inr (Some min_gap)
      /\ 0 < min_gap
      /\ In min_gap (gaps (sort_dates ten_days))
      /\ forall g,
          In g (gaps (sort_dates ten_days)) -> 0 < g -> min_gap <= g.
Proof.
  destruct (proj2 (min_dt_ascending ten_days eq_refl) eq_refl)
    as [Hspec Hmin].
  split; [exact Hspec|]. apply Hmin.
  exists 0, (Timedelta_days 1). simpl. intuition discriminate.
Defined.

(** ** Dictionaries: assignment and merging *)

Section DictMerge.

Context {V : Type}.

Lemma get_set (k k' : string) (v : V) (d : OrderedDict.t V) :
  OrderedDict.get k (OrderedDict.set k' v d)
  = if String.eqb k k' then Some v else OrderedDict.get k d.
Proof.
  induction d as [|[k0 v0] d IH]; simpl.
  - reflexivity.
  - destruct (String.eqb_spec k' k0) as [->|Hne]; simpl.
    + now destruct (String.eqb k k0).
    + destruct (String.eqb_spec k k0) as [->|Hne'].
      * destruct (String.eqb_spec k0 k'); [congruence|reflexivity].
      * exact IH.
Qed.

Lemma has_key_In (d : OrderedDict.t V) (k : string) :
  has_key d k = true <-> In k (OrderedDict.keys d).
Proof.
  unfold has_key. rewrite existsb_exists. split.
  - intros [x [Hin Heq]]. apply String.eqb_eq in Heq. now subst.
  - intros Hin. exists k. split; [exact Hin | apply String.eqb_refl].
Qed.

Lemma get_none_keys (k : string) (d : OrderedDict.t V) :
  ~ In k (OrderedDict.keys d) -> OrderedDict.get k d = None.
Proof.
  intros Hnin. destruct (OrderedDict.get k d) as [v|] eqn:Hget;
    [|reflexivity].
  exfalso. apply Hnin. apply get_keys. now exists v.
Qed.

Lemma keys_set (k : string) (v : V) (d : OrderedDict.t V) :
  OrderedDict.keys (OrderedDict.set k v d)
  = if has_key d k then OrderedDict.keys d else OrderedDict.keys d ++ [k].
Proof.
  unfold has_key. induction d as [|[k0 v0] d IH]; simpl; [reflexivity|].
  destruct (String.eqb k k0) eqn:Heq; simpl.
  - apply String.eqb_eq in Heq. now subst.
  - rewrite IH. now destruct (existsb (String.eqb k) (OrderedDict.keys d)).
Qed.

(** [{**d, **e}] looked up: the value of [e] where [e] has the key, the
    value of [d] elsewhere. *)
Lemma get_update (k : string) (e : OrderedDict.t V) :
  OrderedDict.wf e ->
  forall d,
    OrderedDict.get k (OrderedDict.update d e)
    = match OrderedDict.get k e with
      | Some v => Some v
      | None => OrderedDict.get k d
      end.
Proof.
  unfold OrderedDict.update.
  induction e as [|[k' v] e IH]; intros Hwf d; simpl; [reflexivity|].
  inversion Hwf as [|? ? Hnin Hwf']; subst.
  rewrite (IH Hwf'). cbn [fst snd]. rewrite get_set.
  destruct (String.eqb_spec k k') as [->|Hne]; [|reflexivity].
  now rewrite (get_none_keys k' e Hnin).
Qed.

(** [{**d, **e}] keeps the keys of [d] in place and appends the new keys
    of [e]. *)
Lemma keys_update (e : OrderedDict.t V) :
  OrderedDict.wf e ->
  forall d,
    OrderedDict.keys (OrderedDict.update d e)
    = OrderedDict.keys d
      ++ filter (fun k => negb (has_key d k)) (OrderedDict.keys e).
Proof.
  unfold OrderedDict.update.
  induction e as [|[k' v] e IH]; intros Hwf d; simpl.
  - now rewrite app_nil_r.
  - inversion Hwf as [|? ? Hnin Hwf']; subst.
    rewrite (IH Hwf'). cbn [fst snd]. rewrite keys_set.
    destruct (has_key d k') eqn:Hk; simpl.
    + f_equal. apply filter_ext_in. intros k Hin. f_equal.
      unfold has_key. now rewrite keys_set, Hk.
    + rewrite <- app_assoc. simpl. do 2 f_equal.
      apply filter_ext_in. intros k Hin. f_equal.
      unfold has_key at 1. rewrite keys_set, Hk, existsb_app. simpl.
      destruct (String.eqb_spec k k') as [->|Hne]; [contradiction|].
      now rewrite !orb_false_r.
Qed.

Lemma update_wf (d e : OrderedDict.t V) :
  OrderedDict.wf d -> OrderedDict.wf e ->
  OrderedDict.wf (OrderedDict.update d e).
Proof.
  intros Hd He. unfold OrderedDict.wf. rewrite keys_update by exact He.
  apply NoDup_app; [exact Hd | now apply NoDup_filter |].
  intros k Hk Hin. apply filter_In in Hin. destruct Hin as [_ Hneg].
  apply negb_true_iff in Hneg. apply has_key_In in Hk. congruence.
Qed.

Lemma set_not_nil (k : string) (v : V) (d : OrderedDict.t V) :
  OrderedDict.set k v d <> [].
Proof. destruct d as [|[k0 v0] d]; simpl; [|destruct (String.eqb k k0)];
  discriminate. Qed.

Lemma update_nil (d e : OrderedDict.t V) :
  OrderedDict.update d e = [] -> d = [] /\ e = [].
Proof.
  unfold OrderedDict.update. revert d.
  induction e as [|[k v] e IH]; intros d; simpl; [now split|].
  intros H. destruct (IH _ H) as [Hset _].
  now destruct (set_not_nil k v d).
Qed.

End DictMerge.

(** ** The metric printer *)

Lemma string_length_append (a b : string) :
  String.length (a ++ b) = (String.length a + String.length b)%nat.
Proof. induction a as [|c a IH]; simpl; [reflexivity|]. now rewrite IH. Qed.

Lemma append_suffix_inj (s a b : string) :
  (a ++ s)%string = (b ++ s)%string -> a = b.
Proof.
  revert b. induction a as [|c a IH]; intros [|c' b] H; simpl in H.
  - reflexivity.
  - exfalso. apply (f_equal String.length) in H. simpl in H.
    rewrite string_length_append in H. lia.
  - exfalso. apply (f_equal String.length) in H. simpl in H.
    rewrite string_length_append in H. lia.
  - injection H as -> H. f_equal. now apply IH.
Qed.

Lemma suffixed_keys (vm : OrderedDict.t Q) :
  OrderedDict.keys (suffixed vm)
  = map (fun k => (k ++ "_val")%string) (OrderedDict.keys vm).
Proof. unfold suffixed, OrderedDict.keys. now rewrite !map_map. Qed.

Lemma suffixed_wf (vm : OrderedDict.t Q) :
  OrderedDict.wf vm -> OrderedDict.wf (suffixed vm).
Proof.
  unfold OrderedDict.wf. rewrite suffixed_keys.
  induction (OrderedDict.keys vm) as [|k ks IH]; simpl; intros Hnd;
    [constructor|].
  inversion Hnd as [|? ? Hnin Hnd']; subst. constructor; [|now apply IH].
  intros Hin. apply in_map_iff in Hin. destruct Hin as [k' [Heq Hin]].
  apply append_suffix_inj in Heq. now subst.
Qed.

Lemma displayed_row_wf (metrics : OrderedDict.t Q)
    (val_metrics : option (OrderedDict.t Q)) :
  OrderedDict.wf metrics ->
  no_clash metrics val_metrics ->
  OrderedDict.wf (displayed_row metrics val_metrics).
Proof.
  intros Hwf Hclash. destruct val_metrics as [vm|]; simpl; [|exact Hwf].
  destruct Hclash as [Hwfv Hfresh].
  unfold OrderedDict.wf. rewrite keys_app.
  apply NoDup_app; [exact Hwf | now apply suffixed_wf |].
  intros k Hk Hin. rewrite suffixed_keys in Hin.
  apply in_map_iff in Hin. destruct Hin as [k' [<- Hin]].
  now apply (Hfresh k').
Qed.

(** The claim as it is stated fails on two inputs. When a training
    metric already bears the suffixed name of a validation metric, the
    validation value takes the place of the training value and precedes
    the training entries after it. When there is no metric at all, the
    frame is rendered in three lines. *)
Lemma print_epoch_metrics_counterexample :
  (stdout (print_epoch_metrics clashing_metrics (Some clashing_val_metrics) 0)
   = [HeaderLine ["loss_val"; "mae"]; ValueLine 1 [3%Q; 2%Q]]
   /\ displayed_row clashing_metrics (Some clashing_val_metrics)
      = [("loss_val", 1%Q); ("mae", 2%Q); ("loss_val", 3%Q)]
   /\ stdout (print_epoch_metrics clashing_metrics
                (Some clashing_val_metrics) 0)
      <> [HeaderLine
            (OrderedDict.keys
               (displayed_row clashing_metrics (Some clashing_val_metrics)));
          ValueLine 1
            (OrderedDict.values
               (displayed_row clashing_metrics (Some clashing_val_metrics)))])
  /\ stdout (print_epoch_metrics [] None 0)
     = [TextLine "Empty DataFrame"; TextLine "Columns: []"; IndexLine [1]].
Proof.
  split; [|reflexivity].
  split; [reflexivity|]. split; [reflexivity|]. discriminate.
Qed.

Lemma to_string_rows (row : OrderedDict.t Q) (index : Z) :
  row <> [] ->
  DataFrame_to_string row index
  = [HeaderLine (OrderedDict.keys row);
     ValueLine index (OrderedDict.values row)].
Proof. destruct row; [contradiction|reflexivity]. Qed.

(** The printer in terms of the row it displays, clashes included. *)
Lemma print_epoch_metrics_run (metrics : OrderedDict.t Q)
    (val_metrics : option (OrderedDict.t Q)) (e : Z) :
  OrderedDict.wf metrics ->
  (forall vm, val_metrics = Some vm -> OrderedDict.wf vm) ->
  let row := OrderedDict.update metrics (validation_row val_metrics) in
  print_epoch_metrics metrics val_metrics e
  = if e >? 0
    then match nth_error (DataFrame_to_string row (e + 1)) 1 with
         | Some second => print second
         | None => raise IndexError
         end
    else print_lines (DataFrame_to_string row (e + 1)).
Proof.
  intros Hwf Hwfv. cbv zeta. unfold print_epoch_metrics.
  destruct val_metrics as [vm|]; cbn [validation_row].
  - pose proof (suffixed_wf vm (Hwfv vm eq_refl)) as Hwfs.
    rewrite len_gt_0. unfold OrderedDict.items. fold (suffixed vm).
    destruct vm as [|kv rest] eqn:Hvm.
    + now rewrite (dict_of_items_wf metrics) by exact Hwf.
    + rewrite <- Hvm in *.
      rewrite (dict_of_items_wf metrics) by exact Hwf.
      rewrite (dict_of_items_wf (suffixed vm)) by exact Hwfs.
      now rewrite (dict_of_items_wf (OrderedDict.update metrics _))
        by now apply update_wf.
  - now rewrite (dict_of_items_wf metrics) by exact Hwf.
Qed.

(** C9, amended. [print_epoch_metrics] displays one row: the training
    entries in their places, then the validation entries under their
    names suffixed with [_val]; a suffixed name that is already the name
    of a training metric shows the validation value in the place of the
    training entry, and without such a clash the row is the training
    entries followed by the suffixed validation entries. When the row
    has an entry, the header line and the value line are printed at
    epoch 0 and the value line alone at every epoch after it; a row
    without any entry is printed at epoch 0 as the three lines of an
    empty frame. *)
Theorem print_epoch_metrics_lines (metrics : OrderedDict.t Q)
    (val_metrics : option (OrderedDict.t Q)) (e : Z) :
  OrderedDict.wf metrics ->
  (forall vm, val_metrics = Some vm -> OrderedDict.wf vm) ->
  exists row,
    OrderedDict.keys row
    = OrderedDict.keys metrics
      ++ filter (fun k => negb (has_key metrics k))
           (OrderedDict.keys (validation_row val_metrics))
    /\ (forall k,
           OrderedDict.get k row
           = match OrderedDict.get k (validation_row val_metrics) with
             | Some v => Some v
             | None => OrderedDict.get k metrics
             end)
    /\ (no_clash metrics val_metrics ->
        row = displayed_row metrics val_metrics)
    /\ outcome (print_epoch_metrics metrics val_metrics e) = inr tt
    /\ (row <> [] -> e = 0 ->
        stdout (print_epoch_metrics metrics val_metrics e)
        = [HeaderLine (OrderedDict.keys row);
           ValueLine 1 (OrderedDict.values row)])
    /\ (row <> [] -> 0 < e ->
        stdout (print_epoch_metrics metrics val_metrics e)
        = [ValueLine (e + 1) (OrderedDict.values row)])
    /\ (row = [] -> e = 0 ->
        stdout (print_epoch_metrics metrics val_metrics e)
        = [TextLine "Empty DataFrame"; TextLine "Columns: []";
           IndexLine [1]]).
Proof.
  intros Hwf Hwfv.
  assert (Hwfr : OrderedDict.wf (validation_row val_metrics)).
  { destruct val_metrics as [vm|]; cbn [validation_row].
    - apply suffixed_wf. now apply Hwfv.
    - constructor. }
  exists (OrderedDict.update metrics (validation_row val_metrics)).
  split; [now apply keys_update|].
  split; [intros k; now apply get_update|].
  split.
  { intros Hclash. destruct val_metrics as [vm|]; cbn [validation_row].
    - apply update_fresh.
      pose proof (displayed_row_wf metrics (Some vm) Hwf Hclash) as Hrow.
      unfold OrderedDict.wf in Hrow. cbn [displayed_row] in Hrow.
      now rewrite keys_app in Hrow.
    - reflexivity. }
  rewrite (print_epoch_metrics_run metrics val_metrics e Hwf Hwfv).
  set (row := OrderedDict.update metrics (validation_row val_metrics)).
  split; [|split; [|split]].
  - destruct (e >? 0); [|reflexivity]. now destruct row.
  - intros Hne ->. now rewrite to_string_rows.
  - intros Hne Hpos. rewrite Z.gtb_ltb.
    apply Z.ltb_lt in Hpos. rewrite Hpos. now rewrite to_string_rows.
  - intros Hnil ->. now rewrite Hnil.
Qed.

Lemma print_epoch_metrics_lines_witness :
  (stdout (print_epoch_metrics loss_only (Some clashing_val_metrics) 0)
   = [HeaderLine ["loss"; "loss_val"]; ValueLine 1 [1%Q; 3%Q]])
  /\ (stdout (print_epoch_metrics loss_only (Some clashing_val_metrics) 5)
      = [ValueLine 6 [1%Q; 3%Q]])
  /\ (stdout (print_epoch_metrics clashing_metrics
                (Some clashing_val_metrics) 5)
      = [ValueLine 6 [3%Q; 2%Q]]).
Proof.
  assert (Hwf : OrderedDict.wf loss_only).
  { unfold OrderedDict.wf. simpl. repeat constructor. simpl. tauto. }
  assert (Hwfc : OrderedDict.wf clashing_metrics).
  { unfold OrderedDict.wf. simpl.
    repeat constructor; simpl; intuition discriminate. }
  assert (Hwfv : forall vm,
             Some clashing_val_metrics = Some vm -> OrderedDict.wf vm).
  { intros vm H. injection H as <-. unfold OrderedDict.wf. simpl.
    repeat constructor. simpl. tauto. }
  assert (Hclash : no_clash loss_only (Some clashing_val_metrics)).
  { simpl. split; [now apply Hwfv|].
    intros k [<-|[]]. simpl. intuition discriminate. }
  split; [|split].
  - destruct (print_epoch_metrics_lines loss_only
                (Some clashing_val_metrics) 0 Hwf Hwfv)
      as [row [_ [_ [Hrow [_ [H0 _]]]]]].
    rewrite (Hrow Hclash) in H0. apply H0; [discriminate|reflexivity].
  - destruct (print_epoch_metrics_lines loss_only
                (Some clashing_val_metrics) 5 Hwf Hwfv)
      as [row [_ [_ [Hrow [_ [_ [H5 _]]]]]]].
    rewrite (Hrow Hclash) in H5. apply H5; [discriminate|reflexivity].
  - destruct (print_epoch_metrics_lines clashing_metrics
                (Some clashing_val_metrics) 5 Hwfc Hwfv)
      as [row [Hkeys [Hget [_ [_ [_ [H5 _]]]]]]].
    destruct row as [|[k1 v1] [|[k2 v2] [|kv row]]]; try discriminate.
    cbn in Hkeys. injection Hkeys as -> ->.
    pose proof (Hget "loss_val"%string) as G1.
    pose proof (Hget "mae"%string) as G2.
    cbn in G1, G2. injection G1 as ->. injection G2 as ->.
    apply H5; [discriminate|reflexivity].
Defined.

(** ** Sums of rationals *)

Local Open Scope Q_scope.

Lemma fold_left_Qplus (t : list Q) :
  forall a, fold_left Qplus t a == a + sum_of (fun w => w) t.
Proof.
  induction t as [|w rest IH]; intros a; simpl.
  - ring.
  - rewrite IH. ring.
Qed.

Lemma sum_of_map (f g : Q -> Q) (t : list Q) :
  sum_of f (map g t) = sum_of (fun w => f (g w)) t.
Proof. induction t as [|w rest IH]; simpl; [reflexivity|]. now rewrite IH. Qed.

Lemma sum_of_ext (f g : Q -> Q) (t : list Q) :
  (forall w, f w == g w) -> sum_of f t == sum_of g t.
Proof.
  intros Hfg. induction t as [|w rest IH]; simpl; [reflexivity|].
  now rewrite Hfg, IH.
Qed.

Lemma sum_of_zero (f : Q -> Q) (t : list Q) :
  Forall (fun w => f w == 0) t -> sum_of f t == 0.
Proof.
  induction 1 as [|w rest Hw _ IH]; simpl; [reflexivity|].
  rewrite Hw, IH. ring.
Qed.

Lemma sum_of_le (f : Q -> Q) (t t' : list Q) :
  Forall2 (fun w w' => f w <= f w') t t' -> sum_of f t <= sum_of f t'.
Proof.
  induction 1 as [|w w' rest rest' Hw _ IH]; simpl.
  - apply Qle_refl.
  - now apply Qplus_le_compat.
Qed.

Lemma tensor_sum_sum_of (f : Q -> Q) (t : list Q) :
  tensor_sum (map f t) == sum_of f t.
Proof.
  unfold tensor_sum. rewrite fold_left_Qplus, sum_of_map, Qplus_0_l.
  reflexivity.
Qed.

(** ** The trend penalty *)

Lemma clamp_min_max (x : Q) : clamp_min x 0 == Qmax x 0.
Proof.
  unfold clamp_min, Qltb. destruct (Qle_bool 0 x) eqn:Hle; simpl.
  - apply Qle_bool_iff in Hle. symmetry. now apply Q.max_l.
  - symmetry. apply Q.max_r. apply Qlt_le_weak, Qnot_le_lt.
    intros H. apply Qle_bool_iff in H. congruence.
Qed.

Lemma clamp_min_le (x y : Q) : x <= y -> clamp_min x 0 <= clamp_min y 0.
Proof.
  intros Hxy. rewrite !clamp_min_max. now apply Q.max_le_compat_r.
Qed.

Lemma reg_func_trend_threshold (weights : list Q) (t : Q) :
  reg_func_trend weights (Some t)
  == sum_of (fun w => clamp_min (Qabs w - t) 0) weights.
Proof.
  unfold reg_func_trend. rewrite map_map. apply tensor_sum_sum_of.
Qed.

(** C7. With a threshold the trend penalty is the sum over all elements
    of [max(|w| - threshold, 0)], without one the sum of [|w|]. It is 0
    when every [|w|] is at most the threshold, and it does not decrease
    when the absolute values of the elements grow. *)
Theorem reg_func_trend_spec :
  (forall weights t,
      reg_func_trend weights (Some t)
      == sum_of (fun w => Qmax (Qabs w - t) 0) weights)
  /\ (forall weights, reg_func_trend weights None == sum_of Qabs weights)
  /\ (forall weights t,
         Forall (fun w => Qabs w <= t) weights ->
         reg_func_trend weights (Some t) == 0)
  /\ (forall weights weights' threshold,
         Forall2 (fun w w' => Qabs w <= Qabs w') weights weights' ->
         reg_func_trend weights threshold
         <= reg_func_trend weights' threshold).
Proof.
  split; [|split; [|split]].
  - intros weights t. rewrite reg_func_trend_threshold.
    apply sum_of_ext. intros w. apply clamp_min_max.
  - intros weights. unfold reg_func_trend. apply tensor_sum_sum_of.
  - intros weights t Hall. rewrite reg_func_trend_threshold.
    apply sum_of_zero. apply Forall_impl with (2 := Hall).
    intros w Hw. rewrite clamp_min_max. apply Q.max_r. lra.
  - intros weights weights' [t|] Hle.
    + rewrite !reg_func_trend_threshold.
      apply (sum_of_le (fun w => clamp_min (Qabs w - t) 0)).
      apply Forall2_impl with (2 := Hle).
      intros w w' Hw. apply clamp_min_le. lra.
    + unfold reg_func_trend. rewrite !tensor_sum_sum_of.
      now apply (sum_of_le Qabs).
Qed.

Lemma reg_func_trend_spec_witness :
  reg_func_trend [0.5; -1; 0.25] (Some 1) == 0
  /\ reg_func_trend [0.5; -1; 0.25] (Some 0.5)
     <= reg_func_trend [-2; 1; 0.25] (Some 0.5).
Proof.
  split.
  - apply (proj1 (proj2 (proj2 reg_func_trend_spec))).
    repeat constructor; discriminate.
  - apply (proj2 (proj2 (proj2 reg_func_trend_spec))).
    repeat constructor; discriminate.
Defined.

Local Close Scope Q_scope.

(** ** The symmetric percentage error *)

Local Open Scope Q_scope.

Lemma np_binop_same_length (f : Q -> Q -> Q) (a b : list Q) :
  List.length a = List.length b -> np_binop f a b = inr (zip_with f a b).
Proof. intros H. unfold np_binop. now rewrite H, Nat.eqb_refl. Qed.

Lemma sum_of_zip_with (g : Q -> Q) (f : Q -> Q -> Q) (a : list Q) :
  forall b, sum_of g (zip_with f a b) = sum_of2 (fun x y => g (f x y)) a b.
Proof.
  induction a as [|x a IH]; intros [|y b]; simpl; try reflexivity.
  now rewrite IH.
Qed.

Lemma zip_with_map (f : Q -> Q -> Q) (g : Q -> Q) (a : list Q) :
  forall b,
    zip_with f (map g a) (map g b) = zip_with (fun x y => f (g x) (g y)) a b.
Proof.
  induction a as [|x a IH]; intros [|y b]; simpl; try reflexivity.
  now rewrite IH.
Qed.

Lemma np_sum_sum_of (a : list Q) : np_sum a == sum_of (fun x => x) a.
Proof. unfold np_sum. rewrite fold_left_Qplus. ring. Qed.

Lemma sum_of2_ext (f g : Q -> Q -> Q) (a : list Q) :
  (forall x y, f x y == g x y) ->
  forall b, sum_of2 f a b == sum_of2 g a b.
Proof.
  intros Hfg. induction a as [|x a IH]; intros [|y b]; simpl;
    try reflexivity.
  now rewrite Hfg, IH.
Qed.

Lemma sum_of2_le (f g : Q -> Q -> Q) (a : list Q) :
  (forall x y, f x y <= g x y) ->
  forall b, sum_of2 f a b <= sum_of2 g a b.
Proof.
  intros Hfg. induction a as [|x a IH]; intros [|y b]; simpl;
    try apply Qle_refl.
  apply Qplus_le_compat; [apply Hfg | apply IH].
Qed.

Lemma sum_of2_const0 (a : list Q) :
  forall b, sum_of2 (fun _ _ => 0) a b == 0.
Proof.
  induction a as [|x a IH]; intros [|y b]; simpl; try reflexivity.
  rewrite IH. ring.
Qed.

Lemma sum_of2_diag_zero (v : list Q) :
  sum_of2 (fun e v => Qabs (e - v)) v v == 0.
Proof.
  induction v as [|x v IH]; simpl; [reflexivity|].
  rewrite IH. assert (H : x - x == 0) by ring.
  rewrite (Qabs_wd _ _ H). reflexivity.
Qed.

(** The two sums of the code are the two sums of the formula. *)
Lemma stpe_sums (values estimates : list Q) :
  np_sum (np_abs (zip_with Qminus estimates values))
  == sum_of2 (fun e v => Qabs (e - v)) estimates values
  /\ np_sum (zip_with Qplus (np_abs estimates) (np_abs values))
     == sum_of2 (fun e v => Qabs e + Qabs v) estimates values.
Proof.
  split; rewrite np_sum_sum_of; unfold np_abs.
  - rewrite sum_of_map, sum_of_zip_with. reflexivity.
  - rewrite zip_with_map, sum_of_zip_with. reflexivity.
Qed.

Lemma stpe_run (values estimates : list Q) :
  List.length values = List.length estimates ->
  exists r,
    symmetric_total_percentage_error values estimates = inr r
    /\ r == stpe_formula values estimates.
Proof.
  intros Hlen. unfold symmetric_total_percentage_error.
  rewrite np_binop_same_length by now symmetry.
  rewrite np_binop_same_length
    by (unfold np_abs; now rewrite !length_map).
  eexists. split; [reflexivity|].
  destruct (stpe_sums values estimates) as [Hd Hs].
  unfold stpe_formula. rewrite Hd, Hs.
  assert (Hc : 10e-9 == 1e-8) by reflexivity.
  now rewrite Hc.
Qed.

Lemma stpe_formula_nonneg (values estimates : list Q) :
  0 <= stpe_formula values estimates.
Proof.
  unfold stpe_formula.
  set (d := sum_of2 (fun e v => Qabs (e - v)) estimates values).
  set (s := sum_of2 (fun e v => Qabs e + Qabs v) estimates values).
  assert (Hd0 : 0 <= d).
  { unfold d. rewrite <- (sum_of2_const0 estimates values).
    apply sum_of2_le. intros x y. apply Qabs_nonneg. }
  assert (Hs0 : 0 <= s).
  { unfold s. rewrite <- (sum_of2_const0 estimates values).
    apply sum_of2_le. intros x y.
    pose proof (Qabs_nonneg x). pose proof (Qabs_nonneg y). lra. }
  assert (Hc : 0 < 1e-8) by reflexivity.
  revert Hc. generalize 1e-8. intros c Hc.
  apply Qle_shift_div_l; lra.
Qed.

Lemma stpe_formula_opp (values estimates : list Q) :
  stpe_formula (map Qopp values) (map Qopp estimates)
  == stpe_formula values estimates.
Proof.
  unfold stpe_formula.
  assert (Hd : sum_of2 (fun e v => Qabs (e - v)) (map Qopp estimates)
                 (map Qopp values)
               == sum_of2 (fun e v => Qabs (e - v)) estimates values).
  { rewrite <- !sum_of_zip_with, zip_with_map, !sum_of_zip_with.
    apply sum_of2_ext. intros x y.
    assert (H : - x - - y == - (x - y)) by ring.
    rewrite (Qabs_wd _ _ H). apply Qabs_opp. }
  assert (Hs : sum_of2 (fun e v => Qabs e + Qabs v) (map Qopp estimates)
                 (map Qopp values)
               == sum_of2 (fun e v => Qabs e + Qabs v) estimates values).
  { rewrite <- (sum_of_zip_with (fun x => x)
                  (fun e v => Qabs e + Qabs v)).
    rewrite zip_with_map, sum_of_zip_with.
    apply sum_of2_ext. intros x y. now rewrite !Qabs_opp. }
  now rewrite Hd, Hs.
Qed.

(** The claim as it is stated fails in the arithmetic of the code: in
    binary64 the constant [10e-9] is lost in a sum of 2e9, and the error
    of the estimate -1e9 for the value 1e9 is 100, not less. *)
Lemma symmetric_total_percentage_error_float64_counterexample :
  symmetric_total_percentage_error_float64 [1e9%float] [(-1e9)%float]
  = 100%float
  /\ PrimFloat.ltb
       (symmetric_total_percentage_error_float64 [1e9%float] [(-1e9)%float])
       100%float
     = false.
Proof. split; reflexivity. Qed.

(** C5, amended. On arrays of one length the error is
    [100 * sum(|estimates - values|) / (1e-8 + sum(|estimates| + |values|))];
    it is at least 0, it does not change when both arrays are negated,
    and the error of an array against itself is 0. *)
Theorem symmetric_total_percentage_error_spec :
  (forall values estimates,
      List.length values = List.length estimates ->
      exists r,
        symmetric_total_percentage_error values estimates = inr r
        /\ r == 100 * sum_of2 (fun e v => Qabs (e - v)) estimates values
                / (1e-8
                   + sum_of2 (fun e v => Qabs e + Qabs v) estimates values)
        /\ 0 <= r
        /\ exists r',
            symmetric_total_percentage_error
              (map Qopp values) (map Qopp estimates) = inr r'
            /\ r' == r)
  /\ (forall v,
         exists r, symmetric_total_percentage_error v v = inr r /\ r == 0).
Proof.
  split.
  - intros values estimates Hlen.
    destruct (stpe_run values estimates Hlen) as [r [Hr Hf]].
    exists r. split; [exact Hr|]. split; [exact Hf|]. split.
    + rewrite Hf. apply stpe_formula_nonneg.
    + destruct (stpe_run (map Qopp values) (map Qopp estimates))
        as [r' [Hr' Hf']]; [now rewrite !length_map|].
      exists r'. split; [exact Hr'|].
      now rewrite Hf', Hf, stpe_formula_opp.
  - intros v. destruct (stpe_run v v eq_refl) as [r [Hr Hf]].
    exists r. split; [exact Hr|]. rewrite Hf. unfold stpe_formula.
    rewrite sum_of2_diag_zero. unfold Qdiv. ring.
Qed.

Lemma symmetric_total_percentage_error_spec_witness :
  exists r,
    symmetric_total_percentage_error [1; 2; -3] [1.5; -2; 0] = inr r
    /\ r == 100 * sum_of2 (fun e v => Qabs (e - v)) [1.5; -2; 0] [1; 2; -3]
            / (1e-8
               + sum_of2 (fun e v => Qabs e + Qabs v) [1.5; -2; 0] [1; 2; -3])
    /\ 0 <= r
    /\ exists r',
        symmetric_total_percentage_error
          (map Qopp [1; 2; -3]) (map Qopp [1.5; -2; 0]) = inr r'
        /\ r' == r.
Proof.
  apply (proj1 symmetric_total_percentage_error_spec). reflexivity.
Defined.

Local Close Scope Q_scope.

(** ** The lambda scheduler *)

Local Open Scope Q_scope.

Lemma Qltb_lt (x y : Q) : Qltb x y = true <-> x < y.
Proof.
  unfold Qltb. rewrite negb_true_iff. split.
  - intros H. apply Qnot_le_lt. intros Hle.
    apply Qle_bool_iff in Hle. congruence.
  - intros H. destruct (Qle_bool y x) eqn:Hle; [|reflexivity].
    apply Qle_bool_iff in Hle. exfalso. now apply (Qlt_not_le x y).
Qed.

Lemma Qltb_ge (x y : Q) : Qltb x y = false <-> y <= x.
Proof.
  unfold Qltb. rewrite negb_false_iff. apply Qle_bool_iff.
Qed.

Lemma py_div_nonzero (a b : Q) : ~ b == 0 -> py_div a b = inr (a / b).
Proof.
  intros Hb. unfold py_div. destruct (Qeq_bool b 0) eqn:Heq; [|reflexivity].
  apply Qeq_bool_eq in Heq. contradiction.
Qed.

Lemma inject_Z_nonzero (d : Z) : d <> 0%Z -> ~ 1 * inject_Z d == 0.
Proof.
  intros Hd H. rewrite Qmult_1_l in H.
  unfold Qeq in H. simpl in H. lia.
Qed.

(** The three ways through the function when the sparsity is below 1. *)
Lemma lambda_no_delay (s : Q) (epoch : option Z) :
  s < 1 -> ~ s == 0 ->
  get_regularization_lambda (Some s) None epoch
  = inr (Some (0.02 * (1 / s - 1))).
Proof.
  intros Hs Hs0. unfold get_regularization_lambda.
  apply Qltb_lt in Hs. rewrite Hs. now rewrite py_div_nonzero.
Qed.

Lemma lambda_ramp (s : Q) (d e : Z) :
  s < 1 -> ~ s == 0 -> (e < d)%Z -> d <> 0%Z ->
  get_regularization_lambda (Some s) (Some d) (Some e)
  = inr (Some (0.02 * (1 / s - 1) * inject_Z e / (1 * inject_Z d))).
Proof.
  intros Hs Hs0 Hed Hd. unfold get_regularization_lambda.
  apply Qltb_lt in Hs. rewrite Hs. rewrite py_div_nonzero by exact Hs0.
  apply Z.ltb_lt in Hed. rewrite Hed.
  now rewrite py_div_nonzero by now apply inject_Z_nonzero.
Qed.

Lemma lambda_after_delay (s : Q) (d e : Z) :
  s < 1 -> ~ s == 0 -> (d <= e)%Z ->
  get_regularization_lambda (Some s) (Some d) (Some e)
  = inr (Some (0.02 * (1 / s - 1))).
Proof.
  intros Hs Hs0 Hde. unfold get_regularization_lambda.
  apply Qltb_lt in Hs. rewrite Hs. rewrite py_div_nonzero by exact Hs0.
  apply Z.ltb_ge in Hde. now rewrite Hde.
Qed.

(** C4. [get_regularization_lambda] returns [None] when the sparsity is
    [None] or at least 1. For a sparsity below 1 (and not 0, where the
    division raises) it returns [0.02 * (1 / sparsity - 1)], multiplied by
    [epoch / delay] when a delay is given and the epoch is below it. So
    the result is 0 at epoch 0 of a positive delay, and at the epoch
    equal to the delay it is the value without a delay. *)
Theorem get_regularization_lambda_spec :
  (forall delay epoch, get_regularization_lambda None delay epoch = inr None)
  /\ (forall s delay epoch,
         1 <= s -> get_regularization_lambda (Some s) delay epoch = inr None)
  /\ (forall s epoch,
         s < 1 -> ~ s == 0 ->
         returns (get_regularization_lambda (Some s) None epoch)
           (full_lambda s))
  /\ (forall s d e,
         s < 1 -> ~ s == 0 -> (e < d)%Z -> d <> 0%Z ->
         returns (get_regularization_lambda (Some s) (Some d) (Some e))
           (full_lambda s * (inject_Z e / inject_Z d)))
  /\ (forall s d e,
         s < 1 -> ~ s == 0 -> (d <= e)%Z ->
         returns (get_regularization_lambda (Some s) (Some d) (Some e))
           (full_lambda s))
  /\ (forall s d,
         s < 1 -> ~ s == 0 -> (0 < d)%Z ->
         returns (get_regularization_lambda (Some s) (Some d) (Some 0%Z)) 0)
  /\ (forall s d,
         s < 1 -> ~ s == 0 ->
         exists lam,
           get_regularization_lambda (Some s) (Some d) (Some d)
           = inr (Some lam)
           /\ get_regularization_lambda (Some s) None None
              = inr (Some lam)).
Proof.
  repeat split.
  - intros s delay epoch Hs. unfold get_regularization_lambda.
    apply Qltb_ge in Hs. now rewrite Hs.
  - intros s epoch Hs Hs0. eexists. split.
    + now apply lambda_no_delay.
    + reflexivity.
  - intros s d e Hs Hs0 Hed Hd. eexists. split.
    + now apply lambda_ramp.
    + unfold full_lambda. field. split.
      * intros H. apply (inject_Z_nonzero d Hd). rewrite H. ring.
      * exact Hs0.
  - intros s d e Hs Hs0 Hde. eexists. split.
    + now apply lambda_after_delay.
    + reflexivity.
  - intros s d Hs Hs0 Hd. eexists. split.
    + apply lambda_ramp; try assumption. lia.
    + assert (Hd0 : ~ 1 * inject_Z d == 0) by (apply inject_Z_nonzero; lia).
      unfold Qdiv. change (inject_Z 0) with 0. ring.
  - intros s d Hs Hs0. eexists. split.
    + apply lambda_after_delay; try assumption. lia.
    + now apply lambda_no_delay.
Qed.

Lemma get_regularization_lambda_spec_witness :
  get_regularization_lambda (Some 1.5) (Some 10%Z) (Some 3%Z) = inr None
  /\ returns (get_regularization_lambda (Some 0.5) None None)
       (full_lambda 0.5)
  /\ returns (get_regularization_lambda (Some 0.5) (Some 10%Z) (Some 3%Z))
       (full_lambda 0.5 * (inject_Z 3 / inject_Z 10))
  /\ returns (get_regularization_lambda (Some 0.5) (Some 10%Z) (Some 12%Z))
       (full_lambda 0.5)
  /\ returns (get_regularization_lambda (Some 0.5) (Some 10%Z) (Some 0%Z)) 0
  /\ exists lam,
      get_regularization_lambda (Some 0.5) (Some 10%Z) (Some 10%Z)
      = inr (Some lam)
      /\ get_regularization_lambda (Some 0.5) None None = inr (Some lam).
Proof.
  destruct get_regularization_lambda_spec
    as [_ [Hge [Hfull [Hramp [Hafter [Hzero Hequal]]]]]].
  split; [apply Hge; discriminate|].
  split; [apply Hfull; [reflexivity|discriminate]|].
  split; [apply Hramp; [reflexivity|discriminate|reflexivity|discriminate]|].
  split; [apply Hafter; [reflexivity|discriminate|discriminate]|].
  split; [apply Hzero; [reflexivity|discriminate|reflexivity]|].
  apply Hequal; [reflexivity|discriminate].
Defined.

Local Close Scope Q_scope.

(** ** The autoregressive penalty *)

Local Open Scope R_scope.

Lemma real_fold_left_plus (t : list R) :
  forall a, fold_left Rplus t a = a + real_sum_of (fun w => w) t.
Proof.
  induction t as [|w rest IH]; intros a; simpl.
  - Lra.lra.
  - rewrite IH. Lra.lra.
Qed.

Lemma real_sum_of_map (f g : R -> R) (t : list R) :
  real_sum_of f (map g t) = real_sum_of (fun w => f (g w)) t.
Proof. induction t as [|w rest IH]; simpl; [reflexivity|]. now rewrite IH. Qed.

Lemma real_mean_some (t : list R) :
  t <> [] -> real_mean t = Some (real_sum t / INR (List.length t)).
Proof. destruct t; [contradiction|reflexivity]. Qed.

Lemma real_sum_of_bounds (f : R -> R) (lo hi : R) (t : list R) :
  Forall (fun w => lo <= f w <= hi) t ->
  INR (List.length t) * lo <= real_sum_of f t <= INR (List.length t) * hi.
Proof.
  induction 1 as [|w rest Hw _ IH].
  - simpl. Lra.lra.
  - cbn [real_sum_of List.length]. rewrite S_INR. Lra.lra.
Qed.

Lemma real_div_le (a b c : R) : 0 < c -> a <= b * c -> a / c <= b.
Proof.
  intros Hc H. unfold Rdiv.
  pose proof (Rinv_0_lt_compat c Hc) as Hi.
  assert (Hci : c * / c = 1) by (apply Rinv_r; Lra.lra).
  assert (Hm : a * / c <= b * c * / c)
    by (apply Rmult_le_compat_r; Lra.lra).
  replace (b * c * / c) with (b * (c * / c)) in Hm by ring.
  rewrite Hci in Hm. Lra.lra.
Qed.

Lemma real_le_div (a b c : R) : 0 < c -> a * c <= b -> a <= b / c.
Proof.
  intros Hc H. unfold Rdiv.
  pose proof (Rinv_0_lt_compat c Hc) as Hi.
  assert (Hci : c * / c = 1) by (apply Rinv_r; Lra.lra).
  assert (Hm : a * c * / c <= b * / c)
    by (apply Rmult_le_compat_r; Lra.lra).
  replace (a * c * / c) with (a * (c * / c)) in Hm by ring.
  rewrite Hci in Hm. Lra.lra.
Qed.

Lemma real_div_lt (a b c : R) : 0 < c -> a < b * c -> a / c < b.
Proof.
  intros Hc H. unfold Rdiv.
  pose proof (Rinv_0_lt_compat c Hc) as Hi.
  assert (Hci : c * / c = 1) by (apply Rinv_r; Lra.lra).
  assert (Hm : a * / c < b * c * / c)
    by (apply Rmult_lt_compat_r; Lra.lra).
  replace (b * c * / c) with (b * (c * / c)) in Hm by ring.
  rewrite Hci in Hm. Lra.lra.
Qed.

Lemma real_lt_div (a b c : R) : 0 < c -> a * c < b -> a < b / c.
Proof.
  intros Hc H. unfold Rdiv.
  pose proof (Rinv_0_lt_compat c Hc) as Hi.
  assert (Hci : c * / c = 1) by (apply Rinv_r; Lra.lra).
  assert (Hm : a * c * / c < b * / c)
    by (apply Rmult_lt_compat_r; Lra.lra).
  replace (a * c * / c) with (a * (c * / c)) in Hm by ring.
  rewrite Hci in Hm. Lra.lra.
Qed.

Lemma ar_exponent_bounds (a : R) :
  0 < exp (- 3 * Rpower (1e-12 + a) (1 / 3)) < 1.
Proof.
  split; [apply exp_pos|].
  assert (H : 0 < Rpower (1e-12 + a) (1 / 3)) by apply exp_pos.
  assert (Hneg : - 3 * Rpower (1e-12 + a) (1 / 3) < 0) by Lra.lra.
  pose proof (exp_increasing _ _ Hneg) as Hexp.
  now rewrite exp_0 in Hexp.
Qed.

Lemma ar_fraction_bounds (e : R) : 0 < e < 1 -> 0 < 2 / (1 + e) - 1 < 1.
Proof.
  intros [H0 H1].
  assert (Hd : 0 < 1 + e) by Lra.lra.
  assert (Hlo : 1 < 2 / (1 + e)) by (apply real_lt_div; Lra.lra).
  assert (Hhi : 2 / (1 + e) < 2) by (apply real_div_lt; Lra.lra).
  Lra.lra.
Qed.

Lemma ar_term_bounds (w : R) : 0 < ar_term w < 1.
Proof. apply ar_fraction_bounds, ar_exponent_bounds. Qed.

Lemma cube_root_small : Rpower 1e-12 (1 / 3) = 1e-4.
Proof.
  assert (Hpos : 0 < 1e-4) by Lra.lra.
  assert (Hcube : 1e-12 = Rpower 1e-4 (INR 3)).
  { rewrite (Rpower_pow 3 _ Hpos). simpl. Lra.lra. }
  rewrite Hcube, Rpower_mult.
  replace (INR 3 * (1 / 3)) with 1 by (simpl; Lra.lra).
  now apply Rpower_1.
Qed.

Lemma ar_term_zero : ar_term 0 <= 3e-4.
Proof.
  unfold ar_term. rewrite Rabs_R0, Rplus_0_r, cube_root_small.
  pose proof (exp_ineq1_le (- 3 * 1e-4)) as Hexp.
  pose proof (exp_pos (- 3 * 1e-4)) as Hpos.
  set (e := exp (- 3 * 1e-4)) in *.
  assert (Hdiv : 2 / (1 + e) <= 1 + 3e-4).
  { apply real_div_le; [Lra.lra|]. Lra.nra. }
  Lra.lra.
Qed.

(** The claim as it is stated, for every tensor, fails on the tensor
    without elements: the mean is [nan], which is no value of the
    interval. *)
Lemma reg_func_ar_empty_counterexample :
  reg_func_ar [] = None
  /\ ~ exists penalty, reg_func_ar [] = Some penalty /\ 0 <= penalty < 1.
Proof.
  split; [reflexivity|]. intros [penalty [H _]]. discriminate.
Qed.

(** C6, amended. For a tensor with at least one element the penalty is
    the arithmetic mean over all elements of
    [2 / (1 + exp(-3 * (1e-12 + |w|)^(1/3))) - 1], and it lies in the
    closed interval from 0 to 1; for a tensor of zeros it is at most
    0.0003. A tensor without elements has no mean. *)
Theorem reg_func_ar_spec :
  reg_func_ar [] = None
  /\ forall weights,
      weights <> [] ->
      exists penalty,
        reg_func_ar weights = Some penalty
        /\ penalty
           = real_sum_of ar_term weights / INR (List.length weights)
        /\ 0 <= penalty <= 1
        /\ (Forall (fun w => w = 0) weights -> penalty <= 3e-4).
Proof.
  split; [reflexivity|]. intros weights Hne.
  assert (Hn : 0 < INR (List.length weights)).
  { destruct weights; [contradiction|]. apply lt_0_INR. simpl. lia. }
  assert (Hrun : reg_func_ar weights
                 = Some (real_sum_of ar_term weights
                         / INR (List.length weights))).
  { unfold reg_func_ar. rewrite real_mean_some.
    - unfold real_sum.
      rewrite !length_map, real_fold_left_plus, !real_sum_of_map, Rplus_0_l.
      reflexivity.
    - destruct weights; [contradiction|discriminate]. }
  eexists. split; [exact Hrun|]. split; [reflexivity|]. split.
  - assert (Hall : Forall (fun w => 0 <= ar_term w <= 1) weights).
    { apply Forall_forall. intros w _.
      pose proof (ar_term_bounds w). Lra.lra. }
    pose proof (real_sum_of_bounds ar_term 0 1 weights Hall) as [Hlo Hhi].
    split.
    + apply real_le_div; [exact Hn|]. Lra.lra.
    + apply real_div_le; [exact Hn|]. Lra.lra.
  - intros Hzero.
    assert (Hall : Forall (fun w => 0 <= ar_term w <= 3e-4) weights).
    { apply Forall_impl with (2 := Hzero). intros w ->.
      pose proof (ar_term_bounds 0). pose proof ar_term_zero. Lra.lra. }
    pose proof (real_sum_of_bounds ar_term 0 3e-4 weights Hall) as [_ Hhi].
    apply real_div_le; [exact Hn|]. Lra.lra.
Qed.

Lemma reg_func_ar_spec_witness :
  exists penalty,
    reg_func_ar [0; 0; 0] = Some penalty
    /\ penalty = real_sum_of ar_term [0; 0; 0] / INR 3
    /\ 0 <= penalty <= 1
    /\ penalty <= 3e-4.
Proof.
  destruct (proj2 reg_func_ar_spec [0; 0; 0]) as [penalty [H1 [H2 [H3 H4]]]];
    [discriminate|].
  exists penalty. split; [exact H1|]. split; [exact H2|].
  split; [exact H3|]. apply H4. repeat constructor.
Defined.

Local Close Scope R_scope.

(** * Further properties *)

(** ** The resolver: what is printed, and running it again *)

(** X1. On dates whose span a timedelta can hold, and on a configuration
    whose periods on ['auto'] all have a flag, the resolver prints one
    message for each period on ['auto'] whose flag is set, in the order
    of the configuration and naming the period, then the pruned
    configuration when [verbose] is set, and nothing else. *)
Theorem set_auto_seasonalities_stdout (dates : list Z) (cfg : SeasonConfig)
    (verbose : bool) :
  span_fits dates = true ->
  OrderedDict.wf (periods cfg) ->
  auto_names_builtin (periods cfg) ->
  exists flags,
    auto_disable dates = inr flags
    /\ stdout (set_auto_seasonalities dates cfg verbose)
       = map (fun it => Message (disabling_message (fst it)))
           (filter (fun it =>
                      match arg (snd it) with
                      | ArgAuto => flag_of flags (fst it)
                      | _ => false
                      end) (periods cfg))
         ++ (if verbose
             then [ShowConfig
                     (mkSeasonConfig (type cfg)
                        (kept_periods flags (periods cfg)))]
             else []).
Proof.
  intros Hfit Hwf Hauto.
  pose proof (auto_disable_fits dates Hfit) as Hflags.
  exists (expected_flags dates). split; [exact Hflags|].
  rewrite (set_auto_seasonalities_run dates cfg verbose _ Hflags Hwf Hauto).
  unfold stdout. cbn [fst]. apply (f_equal (fun l => l ++ _)).
  clear Hwf Hauto. induction (periods cfg) as [|[name p] ps IH];
    [reflexivity|].
  cbn [flat_map filter]. rewrite IH. unfold period_messages. cbn [fst snd].
  destruct (arg p) as [|b|z|q]; try reflexivity.
  now destruct (flag_of (expected_flags dates) name).
Qed.

Lemma all_auto_config_ok :
  OrderedDict.wf (periods all_auto_config)
  /\ auto_names_builtin (periods all_auto_config).
Proof.
  split.
  - unfold OrderedDict.wf. simpl.
    repeat constructor; simpl; intuition discriminate.
  - intros name p. simpl. intros [H|[H|[H|[]]]] _;
      injection H as <- _; simpl; tauto.
Defined.

Lemma set_auto_seasonalities_stdout_witness :
  exists flags,
    auto_disable three_years = inr flags
    /\ stdout (set_auto_seasonalities three_years all_auto_config true)
       = map (fun it => Message (disabling_message (fst it)))
           (filter (fun it =>
                      match arg (snd it) with
                      | ArgAuto => flag_of flags (fst it)
                      | _ => false
                      end) (periods all_auto_config))
         ++ [ShowConfig
               (mkSeasonConfig (type all_auto_config)
                  (kept_periods flags (periods all_auto_config)))].
Proof.
  exact (set_auto_seasonalities_stdout three_years all_auto_config true
           eq_refl (proj1 all_auto_config_ok) (proj2 all_auto_config_ok)).
Defined.

Lemma resolved_entry_fixed (flags : OrderedDict.t bool)
    (it : string * Period) :
  is_active (resolved_entry flags it) = true ->
  resolved_entry flags (resolved_entry flags it) = resolved_entry flags it.
Proof.
  destruct it as [name [a d]]. unfold is_active, resolved_entry.
  cbn [fst snd arg resolution]. intros Hact. f_equal. f_equal.
  destruct a as [|[|]|z|q]; cbn [resolution_rule] in *; try reflexivity.
  destruct (flag_of flags name); [discriminate|reflexivity].
Qed.

Lemma kept_periods_fixed (flags : OrderedDict.t bool)
    (ps : OrderedDict.t Period) :
  kept_periods flags (kept_periods flags ps) = kept_periods flags ps.
Proof.
  unfold kept_periods.
  induction ps as [|it ps IH]; [reflexivity|]. cbn [map filter].
  destruct (is_active (resolved_entry flags it)) eqn:Hact; [|exact IH].
  cbn [map filter]. rewrite (resolved_entry_fixed _ _ Hact), Hact.
  now rewrite IH.
Qed.

Lemma kept_periods_messages (flags : OrderedDict.t bool)
    (ps : OrderedDict.t Period) :
  flat_map (period_messages flags) (kept_periods flags ps) = [].
Proof.
  unfold kept_periods.
  induction ps as [|[name [a d]] ps IH]; [reflexivity|]. cbn [map filter].
  destruct (is_active (resolved_entry flags (name, _))) eqn:Hact;
    [|exact IH].
  cbn [flat_map]. rewrite IH, app_nil_r.
  unfold is_active, resolved_entry in Hact.
  unfold period_messages, resolved_entry.
  cbn [fst snd arg resolution] in *.
  destruct a as [|b|z|q]; try reflexivity.
  cbn [resolution_rule] in Hact.
  destruct (flag_of flags name); [discriminate|reflexivity].
Qed.

Lemma NoDup_filter_map_fst {A : Type} (f : string * A -> bool)
    (l : list (string * A)) :
  NoDup (map fst l) -> NoDup (map fst (filter f l)).
Proof.
  induction l as [|x l IH]; simpl; intros Hnd; [constructor|].
  inversion Hnd as [|? ? Hnin Hnd']; subst.
  destruct (f x); [|now apply IH]. simpl. constructor; [|now apply IH].
  intros Hin. apply Hnin. apply in_map_iff in Hin.
  destruct Hin as [y [Hy Hin]]. apply filter_In in Hin.
  apply in_map_iff. exists y. tauto.
Qed.

Lemma kept_periods_wf (flags : OrderedDict.t bool)
    (ps : OrderedDict.t Period) :
  OrderedDict.wf ps -> OrderedDict.wf (kept_periods flags ps).
Proof.
  intros Hwf. unfold OrderedDict.wf, OrderedDict.keys, kept_periods.
  apply NoDup_filter_map_fst.
  change (NoDup (OrderedDict.keys (map (resolved_entry flags) ps))).
  now rewrite resolved_keys.
Qed.

Lemma kept_periods_In (flags : OrderedDict.t bool)
    (ps : OrderedDict.t Period) (name : string) (p : Period) :
  In (name, p) (kept_periods flags ps) ->
  0 < resolution p
  /\ exists p0,
      In (name, p0) ps /\ arg p = arg p0
      /\ resolution p
         = resolution_rule (flag_of flags name) (arg p0) (resolution p0).
Proof.
  unfold kept_periods. intros Hin. apply filter_In in Hin.
  destruct Hin as [Hin Hact]. unfold is_active in Hact. cbn [snd] in Hact.
  apply Z.ltb_lt in Hact. split; [exact Hact|].
  apply in_map_iff in Hin. destruct Hin as [[n0 p0] [Heq Hin0]].
  unfold resolved_entry in Heq. cbn [fst snd] in Heq.
  injection Heq as <- <-. exists p0. now repeat split.
Qed.

Lemma kept_periods_auto_names (flags : OrderedDict.t bool)
    (ps : OrderedDict.t Period) :
  auto_names_builtin ps -> auto_names_builtin (kept_periods flags ps).
Proof.
  intros Hauto name p Hin Ha.
  destruct (kept_periods_In _ _ _ _ Hin) as [_ [p0 [Hin0 [Harg _]]]].
  apply (Hauto name p0 Hin0). congruence.
Qed.

(** A call that returned had the flags. *)
Lemma set_auto_seasonalities_returned (dates : list Z) (cfg : SeasonConfig)
    (verbose : bool) (result : option SeasonConfig) :
  outcome (set_auto_seasonalities dates cfg verbose) = inr result ->
  exists flags, auto_disable dates = inr flags.
Proof.
  rewrite set_auto_seasonalities_flags.
  destruct (auto_disable dates) as [err|flags]; [discriminate|].
  intros _. now exists flags.
Qed.

(** X2. The resolver is idempotent: run again with the same dates on the
    configuration it returned, it returns that configuration unchanged
    and disables nothing more. *)
Theorem set_auto_seasonalities_idempotent (dates : list Z)
    (cfg cfg' : SeasonConfig) (verbose : bool) :
  OrderedDict.wf (periods cfg) ->
  auto_names_builtin (periods cfg) ->
  outcome (set_auto_seasonalities dates cfg verbose) = inr (Some cfg') ->
  set_auto_seasonalities dates cfg' false = ([], inr (Some cfg')).
Proof.
  intros Hwf Hauto Hrun.
  destruct (set_auto_seasonalities_returned _ _ _ _ Hrun) as [flags Hflags].
  rewrite (set_auto_seasonalities_run dates cfg verbose _ Hflags Hwf Hauto)
    in Hrun.
  unfold outcome in Hrun. cbn [snd] in Hrun.
  destruct (kept_periods flags (periods cfg)) as [|it kept] eqn:Hkept;
    [discriminate|].
  injection Hrun as <-.
  rewrite (set_auto_seasonalities_run dates _ false _ Hflags);
    cbn [periods type].
  - rewrite <- Hkept, kept_periods_fixed, kept_periods_messages.
    rewrite Hkept. reflexivity.
  - rewrite <- Hkept. now apply kept_periods_wf.
  - rewrite <- Hkept. now apply kept_periods_auto_names.
Qed.

Lemma set_auto_seasonalities_idempotent_witness :
  set_auto_seasonalities three_years yearly_weekly_auto false
  = ([], inr (Some yearly_weekly_auto)).
Proof.
  apply (set_auto_seasonalities_idempotent three_years all_auto_config
           yearly_weekly_auto true
           (proj1 all_auto_config_ok) (proj2 all_auto_config_ok)).
  reflexivity.
Defined.

(** ** The resolver: configurations without ['auto'] *)

Lemma has_auto_false (ps : OrderedDict.t Period) :
  has_auto ps = false ->
  forall name p, In (name, p) ps -> arg p <> ArgAuto.
Proof.
  unfold has_auto. intros Hno name p Hin Ha.
  assert (Hex : existsb
                  (fun it => match arg (snd it) with
                             | ArgAuto => true
                             | _ => false
                             end) ps = true).
  { apply existsb_exists. exists (name, p). split; [exact Hin|].
    cbn [snd]. now rewrite Ha. }
  congruence.
Qed.

Lemma kept_periods_no_auto (flags flags' : OrderedDict.t bool)
    (ps : OrderedDict.t Period) :
  has_auto ps = false ->
  kept_periods flags ps = kept_periods flags' ps
  /\ flat_map (period_messages flags) ps = [].
Proof.
  unfold kept_periods, has_auto.
  induction ps as [|[name [a d]] ps IH]; [now split|].
  cbn [existsb snd arg]. intros Hno. apply orb_false_iff in Hno.
  destruct Hno as [Ha Hno]. destruct (IH Hno) as [IHk IHm].
  cbn [map filter flat_map]. rewrite IHm, app_nil_r.
  assert (Hentry : resolved_entry flags (name, mkPeriod a d)
                   = resolved_entry flags' (name, mkPeriod a d)).
  { unfold resolved_entry. cbn [fst snd arg resolution].
    destruct a; [discriminate|reflexivity..]. }
  rewrite Hentry, IHk. split; [reflexivity|].
  unfold period_messages. cbn [snd arg].
  destruct a; [discriminate|reflexivity..].
Qed.

(** X3. A configuration without a period on ['auto'] is resolved without
    a look at the flags: whatever the names of its periods, and for any
    two series of dates whose spans a timedelta can hold, the resolver
    does not raise, prints no message, and returns the same result. *)
Theorem set_auto_seasonalities_no_auto (dates dates' : list Z)
    (cfg : SeasonConfig) :
  span_fits dates = true ->
  span_fits dates' = true ->
  OrderedDict.wf (periods cfg) ->
  has_auto (periods cfg) = false ->
  set_auto_seasonalities dates cfg false
  = set_auto_seasonalities dates' cfg false
  /\ exists result,
      set_auto_seasonalities dates cfg false = ([], inr result).
Proof.
  intros Hfit Hfit' Hwf Hno.
  assert (Hauto : auto_names_builtin (periods cfg)).
  { intros name p Hin Ha.
    now destruct (has_auto_false _ Hno name p Hin). }
  rewrite (set_auto_seasonalities_run dates cfg false _
             (auto_disable_fits dates Hfit) Hwf Hauto).
  rewrite (set_auto_seasonalities_run dates' cfg false _
             (auto_disable_fits dates' Hfit') Hwf Hauto).
  destruct (kept_periods_no_auto (expected_flags dates)
              (expected_flags dates') _ Hno) as [Hk Hm].
  destruct (kept_periods_no_auto (expected_flags dates')
              (expected_flags dates) _ Hno) as [_ Hm'].
  rewrite Hk, Hm, Hm'. split; [reflexivity|]. eexists. reflexivity.
Qed.

Lemma set_auto_seasonalities_no_auto_witness :
  set_auto_seasonalities three_years fixed_config false
  = set_auto_seasonalities [] fixed_config false
  /\ exists result,
      set_auto_seasonalities three_years fixed_config false
      = ([], inr result).
Proof.
  apply (set_auto_seasonalities_no_auto three_years [] fixed_config).
  - reflexivity.
  - reflexivity.
  - unfold OrderedDict.wf. simpl.
    repeat constructor; simpl; intuition discriminate.
  - reflexivity.
Defined.

(** ** The flags *)

(** X4. Whatever the dates, weekly seasonality is not auto-disabled when
    neither yearly nor daily seasonality is. *)
Theorem auto_disable_weekly_between (dates : list Z)
    (flags : OrderedDict.t bool) :
  auto_disable dates = inr flags ->
  OrderedDict.get "yearly" flags = Some false ->
  OrderedDict.get "daily" flags = Some false ->
  OrderedDict.get "weekly" flags = Some false.
Proof.
  intros Hflags. destruct (auto_disable_returned _ _ Hflags) as [_ ->].
  unfold expected_flags, flags_of.
  cbn [OrderedDict.get String.eqb Ascii.eqb Bool.eqb].
  intros Hy Hd.
  assert (Hy' : td_lt (span_of dates) (Timedelta_days 730) = false)
    by congruence.
  assert (Hd' : td_lt (span_of dates) (Timedelta_days 2)
                || td_ge (row_gap dates) (Timedelta_days 1) = false)
    by congruence.
  clear Hy Hd. apply orb_false_iff in Hd'. destruct Hd' as [_ Hd].
  f_equal. apply orb_false_iff. split.
  - destruct (span_of dates) as [span|]; [|reflexivity].
    cbn [td_lt] in *. apply Z.ltb_ge in Hy'. apply Z.ltb_ge.
    unfold Timedelta_days in *. lia.
  - destruct (row_gap dates) as [gap|]; [|reflexivity].
    cbn [td_ge] in *. apply Z.leb_gt in Hd. apply Z.leb_gt.
    unfold Timedelta_days in *. lia.
Qed.

Lemma auto_disable_weekly_between_witness :
  exists flags,
    auto_disable hourly_start = inr flags
    /\ OrderedDict.get "weekly" flags = Some false.
Proof.
  eexists. split; [reflexivity|].
  apply (auto_disable_weekly_between hourly_start); reflexivity.
Defined.

(** X5. When the dates are not empty and lie within less than two days,
    a single date for one, all three flags are set. *)
Theorem auto_disable_short_history (dates : list Z) :
  dates <> [] ->
  (forall a b, In a dates -> In b dates -> b - a < Timedelta_days 2) ->
  auto_disable dates
  = inr [("yearly", true); ("weekly", true); ("daily", true)].
Proof.
  intros Hne Hshort.
  destruct (span_of_spec dates Hne) as
    [first [last [_ [_ [Hspan [Hfin [Hlin _]]]]]]].
  specialize (Hshort first last Hfin Hlin).
  assert (Hfit : span_fits dates = true).
  { unfold span_fits. rewrite Hspan. apply Z.leb_le.
    unfold Timedelta_days, Timedelta_max in *. lia. }
  rewrite (auto_disable_fits dates Hfit).
  unfold expected_flags, flags_of. rewrite Hspan. cbn [td_lt].
  assert (H2 : (last - first <? Timedelta_days 2) = true)
    by now apply Z.ltb_lt.
  assert (H14 : (last - first <? Timedelta_days 14) = true)
    by (apply Z.ltb_lt; unfold Timedelta_days in *; lia).
  assert (H730 : (last - first <? Timedelta_days 730) = true)
    by (apply Z.ltb_lt; unfold Timedelta_days in *; lia).
  now rewrite H2, H14, H730.
Qed.

Lemma auto_disable_short_history_witness :
  auto_disable [Timedelta_days 5; Timedelta_days 4; Timedelta_days 5 + 1]
  = inr [("yearly", true); ("weekly", true); ("daily", true)].
Proof.
  apply auto_disable_short_history; [discriminate|].
  intros a b Ha Hb. unfold Timedelta_days in *. simpl in Ha, Hb. lia.
Defined.

(** ** The flags: moving, repeating and reordering the dates *)

Lemma fold_min_shift (c : Z) (rest : list Z) :
  forall x,
    fold_left Z.min (map (Z.add c) rest) (c + x)
    = c + fold_left Z.min rest x.
Proof.
  induction rest as [|y rest IH]; intros x; simpl; [reflexivity|].
  now rewrite Z.add_min_distr_l, IH.
Qed.

Lemma fold_max_shift (c : Z) (rest : list Z) :
  forall x,
    fold_left Z.max (map (Z.add c) rest) (c + x)
    = c + fold_left Z.max rest x.
Proof.
  induction rest as [|y rest IH]; intros x; simpl; [reflexivity|].
  now rewrite Z.add_max_distr_l, IH.
Qed.

Lemma diff_from_shift (c : Z) (s : list Z) :
  forall prev,
    diff_from (c + prev) (map (Z.add c) s) = diff_from prev s.
Proof.
  induction s as [|x rest IH]; intros prev; cbn [map diff_from];
    [reflexivity|].
  rewrite IH. now replace (c + x - (c + prev)) with (x - prev) by lia.
Qed.

(** X6. The flags, and with them the resolver, depend on the dates only
    through their differences: moving every date by the same amount of
    time changes nothing. *)
Theorem set_auto_seasonalities_shift (c : Z) (dates : list Z)
    (cfg : SeasonConfig) (verbose : bool) :
  auto_disable (map (Z.add c) dates) = auto_disable dates
  /\ set_auto_seasonalities (map (Z.add c) dates) cfg verbose
     = set_auto_seasonalities dates cfg verbose.
Proof.
  assert (Hflags : auto_disable (map (Z.add c) dates) = auto_disable dates).
  { unfold auto_disable, span_below, min_dt.
    destruct dates as [|x rest]; [reflexivity|].
    cbn [map series_min series_max series_diff].
    rewrite fold_min_shift, fold_max_shift, diff_from_shift.
    cbn [ts_sub].
    replace (c + fold_left Z.max rest x - (c + fold_left Z.min rest x))
      with (fold_left Z.max rest x - fold_left Z.min rest x) by lia.
    reflexivity. }
  split; [exact Hflags|].
  unfold set_auto_seasonalities. now rewrite Hflags.
Qed.

Lemma nonzero_gaps_repeat (l1 : list Z) (x : Z) (l2 : list Z) :
  forall prev,
    filter (fun g => negb (g =? 0)) (gaps_from prev (l1 ++ x :: x :: l2))
    = filter (fun g => negb (g =? 0)) (gaps_from prev (l1 ++ x :: l2)).
Proof.
  induction l1 as [|y l1 IH]; intros prev; simpl.
  - now rewrite Z.sub_diag.
  - now rewrite IH.
Qed.

Lemma row_gap_repeat (l1 : list Z) (x : Z) (l2 : list Z) :
  row_gap (l1 ++ x :: x :: l2) = row_gap (l1 ++ x :: l2).
Proof.
  unfold row_gap. f_equal. destruct l1 as [|y l1]; simpl.
  - now rewrite Z.sub_diag.
  - apply nonzero_gaps_repeat.
Qed.

Lemma In_repeat (l1 : list Z) (x : Z) (l2 : list Z) (d : Z) :
  In d (l1 ++ x :: x :: l2) <-> In d (l1 ++ x :: l2).
Proof. rewrite !in_app_iff. simpl. tauto. Qed.

Lemma span_of_same_elements (dates dates' : list Z) :
  (forall d, In d dates <-> In d dates') -> span_of dates = span_of dates'.
Proof.
  intros Hsame. unfold span_of.
  now rewrite (series_min_same_elements _ _ Hsame),
    (series_max_same_elements _ _ Hsame).
Qed.

(** X7. A datestamp that is given twice in a row counts once: the flags
    are those of the series without the repetition. *)
Theorem auto_disable_repeated_date (l1 : list Z) (x : Z) (l2 : list Z) :
  auto_disable (l1 ++ x :: x :: l2) = auto_disable (l1 ++ x :: l2).
Proof.
  rewrite !auto_disable_cases. unfold span_fits, expected_flags.
  rewrite row_gap_repeat.
  now rewrite (span_of_same_elements _ _ (In_repeat l1 x l2)).
Qed.

(** X8. The yearly flag depends only on which dates occur, not on their
    order or on how often each occurs: two series of the same dates both
    raise, or both have the same yearly flag. *)
Theorem auto_disable_yearly_same_dates (dates dates' : list Z) :
  (forall d, In d dates <-> In d dates') ->
  match auto_disable dates with
  | inl err => inl err
  | inr flags => inr (OrderedDict.get "yearly" flags)
  end
  = match auto_disable dates' with
    | inl err => inl err
    | inr flags => inr (OrderedDict.get "yearly" flags)
    end.
Proof.
  intros Hsame. rewrite !auto_disable_cases. unfold span_fits.
  rewrite (span_of_same_elements _ _ Hsame).
  destruct (span_of dates') as [span|] eqn:Hspan.
  - destruct (span <=? Timedelta_max); [|reflexivity].
    unfold expected_flags, flags_of.
    cbn [OrderedDict.get String.eqb Ascii.eqb Bool.eqb].
    now rewrite (span_of_same_elements _ _ Hsame), Hspan.
  - unfold expected_flags, flags_of.
    cbn [OrderedDict.get String.eqb Ascii.eqb Bool.eqb].
    now rewrite (span_of_same_elements _ _ Hsame), Hspan.
Qed.

Lemma auto_disable_yearly_same_dates_witness :
  match auto_disable unsorted_dates with
  | inl err => inl err
  | inr flags => inr (OrderedDict.get "yearly" flags)
  end
  = match
      auto_disable [0; Timedelta_days 1; Timedelta_days 1; Timedelta_days 2]
    with
    | inl err => inl err
    | inr flags => inr (OrderedDict.get "yearly" flags)
    end.
Proof.
  apply auto_disable_yearly_same_dates.
  intros d. unfold unsorted_dates. simpl. tauto.
Defined.

Lemma gaps_In_nonempty (dates : list Z) (g : Z) :
  In g (gaps dates) -> dates <> [].
Proof. destruct dates; [contradiction|discriminate]. Qed.

(** X9. On dates whose span a timedelta can hold, one date that is
    earlier than the date before it switches the gap test off: the
    minimal gap is then negative, and the weekly and the daily flag are
    decided by the span alone. *)
Theorem auto_disable_out_of_order (dates : list Z) (g : Z) :
  span_fits dates = true ->
  In g (gaps dates) ->
  g < 0 ->
  exists first last min_gap,
    series_min dates = Some first
    /\ series_max dates = Some last
    /\ min_dt dates = inr (Some min_gap)
    /\ min_gap < 0
    /\ auto_disable dates
       = inr [("yearly", last - first <? Timedelta_days 730);
              ("weekly", last - first <? Timedelta_days 14);
              ("daily", last - first <? Timedelta_days 2)].
Proof.
  intros Hfit Hg Hneg. pose proof (gaps_In_nonempty _ _ Hg) as Hne.
  destruct (span_of_spec dates Hne) as
    [first [last [Hmin [Hmax [Hspan _]]]]].
  assert (Hgin : In g (filter (fun g => negb (g =? 0)) (gaps dates))).
  { apply filter_In. split; [exact Hg|].
    apply negb_true_iff, Z.eqb_neq. lia. }
  destruct (series_min_some (filter (fun g => negb (g =? 0)) (gaps dates)))
    as [m Hm].
  { intros Hnil. now rewrite Hnil in Hgin. }
  destruct (series_min_spec _ _ Hm) as [_ Hle].
  specialize (Hle g Hgin).
  exists first, last, m. split; [exact Hmin|]. split; [exact Hmax|].
  rewrite (min_dt_fits dates Hfit), (auto_disable_fits dates Hfit).
  unfold expected_flags, flags_of, row_gap. rewrite Hm, Hspan.
  split; [reflexivity|]. split; [lia|].
  cbn [td_lt td_ge].
  assert (H7 : (Timedelta_days 7 <=? m) = false)
    by (apply Z.leb_gt; unfold Timedelta_days; lia).
  assert (H1 : (Timedelta_days 1 <=? m) = false)
    by (apply Z.leb_gt; unfold Timedelta_days; lia).
  now rewrite H7, H1, !orb_false_r.
Qed.

Lemma auto_disable_out_of_order_witness :
  exists first last min_gap,
    series_min weekly_descending = Some first
    /\ series_max weekly_descending = Some last
    /\ min_dt weekly_descending = inr (Some min_gap)
    /\ min_gap < 0
    /\ auto_disable weekly_descending
       = inr [("yearly", last - first <? Timedelta_days 730);
              ("weekly", last - first <? Timedelta_days 14);
              ("daily", last - first <? Timedelta_days 2)].
Proof.
  apply (auto_disable_out_of_order weekly_descending (- Timedelta_days 7)).
  - reflexivity.
  - simpl. tauto.
  - reflexivity.
Defined.



(** ** The dimension mapper: lookups, and the resolver before it *)

Lemma season_config_to_model_dims_map (cfg : SeasonConfig) :
  OrderedDict.wf (periods cfg) ->
  periods cfg <> [] ->
  season_config_to_model_dims (Some cfg)
  = Some (map (fun it => (fst it, period_dim (type cfg) (snd it)))
            (periods cfg)).
Proof.
  intros Hwf Hne. simpl.
  destruct (OrderedDict.len (periods cfg) <? 1) eqn:Hlen.
  { apply len_lt_1 in Hlen. contradiction. }
  f_equal. unfold OrderedDict.items.
  rewrite (fold_set_fresh _ (fun _ => true)
             (fun it => period_dim (type cfg) (snd it))).
  - now rewrite filter_all.
  - intros acc [name period]. reflexivity.
  - exact Hwf.
Qed.

Lemma get_map_values {V W : Type} (f : V -> W) (k : string)
    (d : OrderedDict.t V) :
  OrderedDict.get k (map (fun it => (fst it, f (snd it))) d)
  = option_map f (OrderedDict.get k d).
Proof.
  induction d as [|[k' v] d IH]; simpl; [reflexivity|].
  now destruct (String.eqb k k').
Qed.

(** X10. The dimensions are looked up by the names of the periods: a
    name of the configuration has the dimension of its period, and a name
    that is not in the configuration has none. *)
Theorem season_config_to_model_dims_lookup (cfg : SeasonConfig)
    (name : string) :
  OrderedDict.wf (periods cfg) ->
  periods cfg <> [] ->
  exists dims,
    season_config_to_model_dims (Some cfg) = Some dims
    /\ OrderedDict.wf dims
    /\ OrderedDict.get name dims
       = option_map (period_dim (type cfg))
           (OrderedDict.get name (periods cfg)).
Proof.
  intros Hwf Hne. eexists. split.
  - now apply season_config_to_model_dims_map.
  - split.
    + unfold OrderedDict.wf, OrderedDict.keys. now rewrite map_map.
    + apply get_map_values.
Qed.

Lemma season_config_to_model_dims_lookup_witness :
  exists dims,
    season_config_to_model_dims (Some fourier_yearly_weekly) = Some dims
    /\ OrderedDict.wf dims
    /\ OrderedDict.get "weekly" dims = Some 8.
Proof.
  apply (season_config_to_model_dims_lookup fourier_yearly_weekly "weekly").
  - unfold OrderedDict.wf. simpl.
    repeat constructor; simpl; intuition discriminate.
  - discriminate.
Defined.

(** X11. What the resolver returns suits the dimension mapper: the
    dimensions are absent exactly when the resolver returned no
    configuration, and otherwise there is one dimension for each period
    that was kept, under its name, and every dimension is positive. *)
Theorem resolved_config_dims (dates : list Z) (cfg : SeasonConfig)
    (verbose : bool) (result : option SeasonConfig) :
  OrderedDict.wf (periods cfg) ->
  auto_names_builtin (periods cfg) ->
  outcome (set_auto_seasonalities dates cfg verbose) = inr result ->
  (season_config_to_model_dims result = None <-> result = None)
  /\ forall cfg',
      result = Some cfg' ->
      exists dims,
        season_config_to_model_dims result = Some dims
        /\ OrderedDict.keys dims = OrderedDict.keys (periods cfg')
        /\ Forall (fun kv => 0 < snd kv) dims.
Proof.
  intros Hwf Hauto Hrun.
  destruct (set_auto_seasonalities_returned _ _ _ _ Hrun) as [flags Hflags].
  rewrite (set_auto_seasonalities_run dates cfg verbose _ Hflags Hwf Hauto)
    in Hrun.
  unfold outcome in Hrun. cbn [snd] in Hrun.
  pose proof (kept_periods_wf flags _ Hwf) as Hkwf.
  assert (Hpos : forall name p,
             In (name, p) (kept_periods flags (periods cfg)) ->
             0 < resolution p).
  { intros name p Hin. now destruct (kept_periods_In _ _ _ _ Hin). }
  destruct (kept_periods flags (periods cfg)) as [|it kept] eqn:Hkept.
  - assert (result = None) by congruence. subst result.
    split; [tauto|]. discriminate.
  - assert (Hres : result
                   = Some (mkSeasonConfig (type cfg) (it :: kept)))
      by congruence.
    subst result.
    rewrite season_config_to_model_dims_map by (cbn [periods]; congruence).
    split; [split; discriminate|].
    intros cfg' Hcfg'. injection Hcfg' as <-. eexists.
    split; [reflexivity|]. cbn [periods type]. split.
    + unfold OrderedDict.keys. now rewrite map_map.
    + apply Forall_forall. intros [k v] Hin. cbn [snd].
      apply in_map_iff in Hin. destruct Hin as [[name p] [Heq Hin]].
      cbn [fst snd] in Heq. injection Heq as <- <-.
      specialize (Hpos name p Hin). unfold period_dim.
      destruct (String.eqb (type cfg) "fourier"); lia.
Qed.

Lemma resolved_config_dims_witness :
  exists dims,
    season_config_to_model_dims (Some yearly_weekly_auto) = Some dims
    /\ OrderedDict.keys dims = ["yearly"; "weekly"]
    /\ Forall (fun kv => 0 < snd kv) dims.
Proof.
  exact (proj2 (resolved_config_dims three_years all_auto_config false
                  (Some yearly_weekly_auto)
                  (proj1 all_auto_config_ok) (proj2 all_auto_config_ok)
                  eq_refl)
           yearly_weekly_auto eq_refl).
Defined.

(** ** The metric printer: every input *)

Lemma to_string_second (data : OrderedDict.t Q) (index : Z) :
  exists second,
    nth_error (DataFrame_to_string data index) 1 = Some second.
Proof. destruct data; eexists; reflexivity. Qed.

Lemma to_string_length (data : OrderedDict.t Q) (index : Z) :
  List.length (DataFrame_to_string data index)
  = match data with [] => 3%nat | _ :: _ => 2%nat end.
Proof. now destruct data. Qed.

Lemma dict_of_items_nil {V : Type} (l : list (string * V)) :
  dict_of_items l = [] <-> l = [].
Proof.
  split; [|now intros ->]. unfold dict_of_items. intros H.
  now destruct (update_nil _ _ H).
Qed.

(** X12. [print_epoch_metrics] never raises: the frame always has a
    second line for [splitlines()[1]]. It prints one line when the epoch
    index is positive; for every other index, negative ones too, it
    prints the whole frame, which has two lines, or three when there is
    no metric at all. *)
Theorem print_epoch_metrics_never_raises (metrics : OrderedDict.t Q)
    (val_metrics : option (OrderedDict.t Q)) (e : Z) :
  outcome (print_epoch_metrics metrics val_metrics e) = inr tt
  /\ (0 < e ->
      List.length (stdout (print_epoch_metrics metrics val_metrics e))
      = 1%nat)
  /\ (e <= 0 ->
      List.length (stdout (print_epoch_metrics metrics val_metrics e))
      = if no_metrics metrics val_metrics then 3%nat else 2%nat).
Proof.
  unfold print_epoch_metrics.
  set (merged := match val_metrics with
                 | Some vm => if OrderedDict.len vm >? 0 then _ else metrics
                 | None => metrics
                 end).
  assert (Hempty : dict_of_items merged = [] <->
                   no_metrics metrics val_metrics = true).
  { rewrite dict_of_items_nil. unfold merged, no_metrics.
    destruct val_metrics as [[|kv vm]|].
    - destruct metrics; simpl; split; intros H;
        try reflexivity; discriminate.
    - rewrite len_gt_0. split.
      + intros H. apply update_nil in H. destruct H as [_ H].
        apply (proj1 (dict_of_items_nil _)) in H. discriminate.
      + destruct metrics; simpl; discriminate.
    - destruct metrics; simpl; split; intros H;
        try reflexivity; discriminate. }
  destruct (to_string_second (dict_of_items merged) (e + 1)) as [l Hl].
  rewrite Hl. split; [now destruct (e >? 0)|]. split.
  - intros Hpos. rewrite Z.gtb_ltb. apply Z.ltb_lt in Hpos.
    now rewrite Hpos.
  - intros Hle. rewrite Z.gtb_ltb.
    assert (Hnot : (0 <? e) = false) by now apply Z.ltb_ge.
    rewrite Hnot. unfold stdout, print_lines. cbn [fst].
    rewrite to_string_length.
    destruct (dict_of_items merged) as [|kv row] eqn:Hrow.
    + now rewrite (proj1 Hempty eq_refl).
    + destruct (no_metrics metrics val_metrics); [|reflexivity].
      now destruct Hempty as [_ Hnil]; specialize (Hnil eq_refl).
Qed.

Lemma print_epoch_metrics_never_raises_witness :
  List.length (stdout (print_epoch_metrics clashing_metrics
                         (Some clashing_val_metrics) 7)) = 1%nat
  /\ List.length (stdout (print_epoch_metrics clashing_metrics
                            (Some clashing_val_metrics) (-2))) = 2%nat.
Proof.
  split.
  - apply (print_epoch_metrics_never_raises clashing_metrics
             (Some clashing_val_metrics) 7). reflexivity.
  - apply (print_epoch_metrics_never_raises clashing_metrics
             (Some clashing_val_metrics) (-2)). discriminate.
Defined.

(** X13. The merge of the validation metrics, clashes included: the
    training names keep their places, the suffixed validation names that
    are new follow them, and under a name that both have the validation
    value is shown. *)
Theorem print_epoch_metrics_merge (metrics val_metrics : OrderedDict.t Q) :
  OrderedDict.wf metrics ->
  OrderedDict.wf val_metrics ->
  val_metrics <> [] ->
  exists row,
    stdout (print_epoch_metrics metrics (Some val_metrics) 0)
    = [HeaderLine (OrderedDict.keys row);
       ValueLine 1 (OrderedDict.values row)]
    /\ OrderedDict.keys row
       = OrderedDict.keys metrics
         ++ filter (fun k => negb (has_key metrics k))
              (OrderedDict.keys (suffixed val_metrics))
    /\ forall k,
        OrderedDict.get k row
        = match OrderedDict.get k (suffixed val_metrics) with
          | Some v => Some v
          | None => OrderedDict.get k metrics
          end.
Proof.
  intros Hwf Hwfv Hne.
  pose proof (suffixed_wf _ Hwfv) as Hwfs.
  exists (OrderedDict.update metrics (suffixed val_metrics)).
  split; [|split].
  - unfold print_epoch_metrics. rewrite len_gt_0.
    destruct val_metrics as [|kv vm] eqn:Hvm; [contradiction|].
    rewrite <- Hvm in *.
    unfold OrderedDict.items. fold (suffixed val_metrics).
    rewrite (dict_of_items_wf metrics) by exact Hwf.
    rewrite (dict_of_items_wf (suffixed val_metrics)) by exact Hwfs.
    rewrite dict_of_items_wf by now apply update_wf.
    destruct (OrderedDict.update metrics (suffixed val_metrics))
      as [|kv' row] eqn:Hrow; [|reflexivity].
    apply update_nil in Hrow. destruct Hrow as [_ Hnil].
    rewrite Hvm in Hnil. discriminate.
  - now apply keys_update.
  - intros k. now apply get_update.
Qed.

Lemma print_epoch_metrics_merge_witness :
  exists row,
    stdout (print_epoch_metrics clashing_metrics
              (Some clashing_val_metrics) 0)
    = [HeaderLine (OrderedDict.keys row);
       ValueLine 1 (OrderedDict.values row)]
    /\ OrderedDict.keys row
       = OrderedDict.keys clashing_metrics
         ++ filter (fun k => negb (has_key clashing_metrics k))
              (OrderedDict.keys (suffixed clashing_val_metrics))
    /\ forall k,
        OrderedDict.get k row
        = match OrderedDict.get k (suffixed clashing_val_metrics) with
          | Some v => Some v
          | None => OrderedDict.get k clashing_metrics
          end.
Proof.
  apply (print_epoch_metrics_merge clashing_metrics clashing_val_metrics).
  - unfold OrderedDict.wf. simpl.
    repeat constructor; simpl; intuition discriminate.
  - unfold OrderedDict.wf. simpl. repeat constructor. simpl. tauto.
  - discriminate.
Defined.

(** ** The lambda scheduler: errors, warm-up and sparsity *)

Local Open Scope Q_scope.

Lemma py_div_zero (a b : Q) : b == 0 -> py_div a b = inl ZeroDivisionError.
Proof.
  intros Hb. unfold py_div. now rewrite (Qeq_eq_bool _ _ Hb).
Qed.

(** X14. Outside its contract the scheduler raises: [ZeroDivisionError]
    for a sparsity of 0, whatever the delay and the epoch;
    [TypeError] when a delay is given without an epoch; and
    [ZeroDivisionError] for a delay of 0 at a negative epoch. *)
Theorem get_regularization_lambda_errors :
  (forall s delay epoch,
      s == 0 ->
      get_regularization_lambda (Some s) delay epoch
      = inl ZeroDivisionError)
  /\ (forall s d,
         s < 1 -> ~ s == 0 ->
         get_regularization_lambda (Some s) (Some d) None = inl TypeError)
  /\ (forall s e,
         s < 1 -> ~ s == 0 -> (e < 0)%Z ->
         get_regularization_lambda (Some s) (Some 0%Z) (Some e)
         = inl ZeroDivisionError).
Proof.
  split; [|split].
  - intros s delay epoch Hs. unfold get_regularization_lambda.
    assert (Hlt : Qltb s 1 = true) by (apply Qltb_lt; rewrite Hs; reflexivity).
    rewrite Hlt. now rewrite py_div_zero.
  - intros s d Hs Hs0. unfold get_regularization_lambda.
    apply Qltb_lt in Hs. rewrite Hs. now rewrite py_div_nonzero.
  - intros s e Hs Hs0 He. unfold get_regularization_lambda.
    apply Qltb_lt in Hs. rewrite Hs. rewrite py_div_nonzero by exact Hs0.
    apply Z.ltb_lt in He. rewrite He.
    rewrite py_div_zero; [reflexivity|]. change (inject_Z 0) with 0. ring.
Qed.

Lemma get_regularization_lambda_errors_witness :
  get_regularization_lambda (Some 0) (Some 10%Z) (Some 3%Z)
  = inl ZeroDivisionError
  /\ get_regularization_lambda (Some 0.5) (Some 10%Z) None = inl TypeError
  /\ get_regularization_lambda (Some 0.5) (Some 0%Z) (Some (-1)%Z)
     = inl ZeroDivisionError.
Proof.
  destruct get_regularization_lambda_errors as [Hzero [Htype Hdelay]].
  split; [apply Hzero; reflexivity|].
  split; [apply Htype; [reflexivity|discriminate]|].
  apply Hdelay; [reflexivity|discriminate|reflexivity].
Defined.

Lemma full_lambda_pos (s : Q) : 0 < s -> s < 1 -> 0 < full_lambda s.
Proof.
  intros H0 H1. unfold full_lambda.
  assert (Hinv : 1 < 1 / s).
  { apply Qlt_shift_div_l; [exact H0|]. lra. }
  lra.
Qed.

Lemma ramp_le (F a b D : Q) :
  0 <= F -> 0 < D -> a <= b -> F * a / D <= F * b / D.
Proof.
  intros HF HD Hab. apply Qle_shift_div_r; [exact HD|].
  assert (Heq : F * b / D * D == F * b) by (field; lra).
  rewrite Heq. nra.
Qed.

Lemma inject_Z_1_pos (d : Z) : (0 < d)%Z -> 0 < 1 * inject_Z d.
Proof.
  intros Hd. rewrite Qmult_1_l. change 0 with (inject_Z 0).
  now rewrite <- Zlt_Qlt.
Qed.

(** The value of the scheduler during and after the warm-up, for a
    sparsity inside the range. *)
Lemma lambda_schedule (s : Q) (d e : Z) :
  0 < s -> s < 1 -> (0 < d)%Z ->
  get_regularization_lambda (Some s) (Some d) (Some e)
  = inr (Some (if (e <? d)%Z
               then full_lambda s * inject_Z e / (1 * inject_Z d)
               else full_lambda s)).
Proof.
  intros H0 H1 Hd.
  assert (Hs0 : ~ s == 0) by lra.
  destruct (e <? d)%Z eqn:Hed.
  - apply Z.ltb_lt in Hed. apply lambda_ramp; try assumption. lia.
  - apply Z.ltb_ge in Hed. now apply lambda_after_delay.
Qed.

(** X15. During the warm-up of a positive delay the strength grows with
    the epoch: it starts at 0 or above, it never decreases from one epoch
    to a later one, and it never exceeds the strength without a delay. *)
Theorem get_regularization_lambda_warm_up (s : Q) (d e e' : Z) :
  0 < s -> s < 1 -> (0 < d)%Z -> (0 <= e)%Z -> (e <= e')%Z ->
  exists lam lam',
    get_regularization_lambda (Some s) (Some d) (Some e) = inr (Some lam)
    /\ get_regularization_lambda (Some s) (Some d) (Some e')
       = inr (Some lam')
    /\ 0 <= lam /\ lam <= lam' /\ lam' <= full_lambda s.
Proof.
  intros H0 H1 Hd He Hee.
  pose proof (full_lambda_pos s H0 H1) as HF.
  pose proof (inject_Z_1_pos d Hd) as HD.
  do 2 eexists. split; [now apply lambda_schedule|].
  split; [now apply lambda_schedule|].
  assert (Hq : forall a b : Z, (a <= b)%Z -> inject_Z a <= inject_Z b)
    by (intros a b Hab; now rewrite <- Zle_Qle).
  set (F := full_lambda s) in *. set (D := 1 * inject_Z d) in *.
  assert (Hfull : F == F * inject_Z d / D).
  { unfold D. field. intros H. unfold D in HD. rewrite Qmult_1_l in HD.
    rewrite H in HD. now apply (Qlt_irrefl 0). }
  assert (Hzero : 0 == F * inject_Z 0 / D).
  { change (inject_Z 0) with 0. unfold Qdiv. ring. }
  destruct (e <? d)%Z eqn:Hed, (e' <? d)%Z eqn:Hed';
    try apply Z.ltb_lt in Hed; try apply Z.ltb_ge in Hed;
    try apply Z.ltb_lt in Hed'; try apply Z.ltb_ge in Hed'.
  - split; [|split].
    + rewrite Hzero. apply ramp_le; [lra|exact HD|now apply Hq].
    + apply ramp_le; [lra|exact HD|now apply Hq].
    + rewrite Hfull at 2. apply ramp_le; [lra|exact HD|apply Hq; lia].
  - split; [|split].
    + rewrite Hzero. apply ramp_le; [lra|exact HD|now apply Hq].
    + rewrite Hfull at 2. apply ramp_le; [lra|exact HD|apply Hq; lia].
    + apply Qle_refl.
  - lia.
  - split; [lra|]. split; apply Qle_refl.
Qed.

Lemma get_regularization_lambda_warm_up_witness :
  exists lam lam',
    get_regularization_lambda (Some 0.5) (Some 10%Z) (Some 3%Z)
    = inr (Some lam)
    /\ get_regularization_lambda (Some 0.5) (Some 10%Z) (Some 7%Z)
       = inr (Some lam')
    /\ 0 <= lam /\ lam <= lam' /\ lam' <= full_lambda 0.5.
Proof.
  apply (get_regularization_lambda_warm_up 0.5 10 3 7);
    try reflexivity; discriminate.
Defined.

(** X16. A smaller sparsity gives a stronger regularization: inside the
    range the strength is positive and does not increase with the
    sparsity. *)
Theorem get_regularization_lambda_sparsity (s s' : Q) :
  0 < s -> s <= s' -> s' < 1 ->
  exists lam lam',
    get_regularization_lambda (Some s) None None = inr (Some lam)
    /\ get_regularization_lambda (Some s') None None = inr (Some lam')
    /\ 0 < lam' /\ lam' <= lam.
Proof.
  intros H0 Hss H1.
  assert (H0' : 0 < s') by lra. assert (H1' : s < 1) by lra.
  do 2 eexists.
  split; [apply lambda_no_delay; [exact H1'|lra]|].
  split; [apply lambda_no_delay; [exact H1|lra]|].
  split; [now apply (full_lambda_pos s')|].
  assert (Hinv : 1 / s' <= 1 / s).
  { apply Qle_shift_div_l; [exact H0|].
    assert (Heq : 1 / s' * s == s / s') by (field; lra).
    rewrite Heq. apply Qle_shift_div_r; [exact H0'|]. lra. }
  lra.
Qed.

Lemma get_regularization_lambda_sparsity_witness :
  exists lam lam',
    get_regularization_lambda (Some 0.1) None None = inr (Some lam)
    /\ get_regularization_lambda (Some 0.5) None None = inr (Some lam')
    /\ 0 < lam' /\ lam' <= lam.
Proof.
  apply (get_regularization_lambda_sparsity 0.1 0.5);
    try reflexivity; discriminate.
Defined.

(** X17. A negative sparsity is not rejected: the function returns a
    negative strength. *)
Theorem get_regularization_lambda_negative (s : Q) (epoch : option Z) :
  s < 0 ->
  exists lam,
    get_regularization_lambda (Some s) None epoch = inr (Some lam)
    /\ lam < 0.
Proof.
  intros Hs. eexists. split; [apply lambda_no_delay; lra|].
  assert (Hinv : 1 / s < 0).
  { unfold Qdiv. rewrite Qmult_1_l.
    assert (H : 0 < / - s) by (apply Qinv_lt_0_compat; lra).
    assert (Heq : / - s == - / s) by (field; lra).
    rewrite Heq in H. lra. }
  lra.
Qed.

Lemma get_regularization_lambda_negative_witness :
  exists lam,
    get_regularization_lambda (Some (-0.5)) None None = inr (Some lam)
    /\ lam < 0.
Proof.
  apply (get_regularization_lambda_negative (-0.5) None). reflexivity.
Defined.

Local Close Scope Q_scope.

(** ** The trend penalty: sign, size and threshold *)

Local Open Scope Q_scope.

Lemma sum_of_nonneg (f : Q -> Q) (t : list Q) :
  (forall w, 0 <= f w) -> 0 <= sum_of f t.
Proof.
  intros Hf. induction t as [|w rest IH]; simpl; [apply Qle_refl|].
  specialize (Hf w). lra.
Qed.

Lemma sum_of_le_pointwise (f g : Q -> Q) (t : list Q) :
  (forall w, f w <= g w) -> sum_of f t <= sum_of g t.
Proof.
  intros Hfg. induction t as [|w rest IH]; simpl; [apply Qle_refl|].
  specialize (Hfg w). lra.
Qed.

Lemma sum_of_zero_inv (f : Q -> Q) (t : list Q) :
  (forall w, 0 <= f w) -> sum_of f t == 0 -> Forall (fun w => f w == 0) t.
Proof.
  intros Hf. induction t as [|w rest IH]; simpl; intros Hsum;
    [constructor|].
  pose proof (Hf w) as Hw. pose proof (sum_of_nonneg f rest Hf) as Hrest.
  constructor; [lra|]. apply IH. lra.
Qed.

Lemma clamp_min_nonneg (x : Q) : 0 <= clamp_min x 0.
Proof. rewrite clamp_min_max. apply Q.le_max_r. Qed.

Lemma reg_func_trend_none (weights : list Q) :
  reg_func_trend weights None == sum_of Qabs weights.
Proof. unfold reg_func_trend. apply tensor_sum_sum_of. Qed.

Lemma sum_of_abs_zero_iff (weights : list Q) :
  sum_of Qabs weights == 0 <-> Forall (fun w => w == 0) weights.
Proof.
  split.
  - intros Hsum. apply (sum_of_zero_inv Qabs) in Hsum;
      [|apply Qabs_nonneg].
    apply Forall_impl with (2 := Hsum). intros w Hw.
    pose proof (Qle_Qabs w) as H1. pose proof (Qle_Qabs (- w)) as H2.
    rewrite Qabs_opp in H2. lra.
  - intros Hall. apply sum_of_zero.
    apply Forall_impl with (2 := Hall). intros w Hw.
    now rewrite (Qabs_wd _ _ Hw).
Qed.

(** X18. The trend penalty of a tensor and of its negation are the
    same, with a threshold and without one. *)
Theorem reg_func_trend_negation (weights : list Q) (threshold : option Q) :
  reg_func_trend (map Qopp weights) threshold
  == reg_func_trend weights threshold.
Proof.
  destruct threshold as [t|].
  - rewrite !reg_func_trend_threshold.
    rewrite sum_of_map. apply sum_of_ext. intros w.
    unfold clamp_min, Qltb.
    assert (H : Qabs (- w) - t == Qabs w - t) by now rewrite Qabs_opp.
    rewrite (Qleb_comp 0 0 (Qeq_refl 0) _ _ H).
    destruct (Qle_bool 0 (Qabs w - t)); simpl; [exact H|reflexivity].
  - rewrite !reg_func_trend_none.
    rewrite sum_of_map. apply sum_of_ext. intros w. apply Qabs_opp.
Qed.

(** X19. The trend penalty is never negative, with any threshold, a
    negative one included, and without one. *)
Theorem reg_func_trend_nonneg (weights : list Q) (threshold : option Q) :
  0 <= reg_func_trend weights threshold.
Proof.
  destruct threshold as [t|].
  - rewrite reg_func_trend_threshold. apply sum_of_nonneg.
    intros w. apply clamp_min_nonneg.
  - rewrite reg_func_trend_none. apply sum_of_nonneg. apply Qabs_nonneg.
Qed.

(** X20. Without a threshold the trend penalty is 0 if and only if
    every element of the tensor is 0. *)
Theorem reg_func_trend_zero_iff (weights : list Q) :
  reg_func_trend weights None == 0 <-> Forall (fun w => w == 0) weights.
Proof. rewrite reg_func_trend_none. apply sum_of_abs_zero_iff. Qed.

Lemma reg_func_trend_zero_iff_witness :
  reg_func_trend [0; 0; 0] None == 0.
Proof.
  apply (proj2 (reg_func_trend_zero_iff [0; 0; 0])).
  repeat constructor.
Defined.

(** X21. A larger threshold never gives a larger penalty, and a
    threshold of 0 is no threshold. *)
Theorem reg_func_trend_threshold_effect (weights : list Q) (t t' : Q) :
  (t <= t' ->
   reg_func_trend weights (Some t') <= reg_func_trend weights (Some t))
  /\ reg_func_trend weights (Some 0) == reg_func_trend weights None.
Proof.
  split.
  - intros Htt. rewrite !reg_func_trend_threshold.
    apply sum_of_le_pointwise. intros w. apply clamp_min_le. lra.
  - rewrite reg_func_trend_threshold, reg_func_trend_none.
    apply sum_of_ext. intros w. rewrite clamp_min_max.
    pose proof (Qabs_nonneg w). rewrite Q.max_l by lra. ring.
Qed.

Lemma reg_func_trend_threshold_effect_witness :
  reg_func_trend [0.5; -1; 0.25] (Some 0.5)
  <= reg_func_trend [0.5; -1; 0.25] (Some 0.25).
Proof.
  apply (reg_func_trend_threshold_effect [0.5; -1; 0.25] 0.25 0.5).
  discriminate.
Defined.

(** ** The seasonality penalty *)

Lemma tensor_numel_pos (t : list Q) : t <> [] -> 0 < tensor_numel t.
Proof.
  intros Hne. unfold tensor_numel. change 0 with (inject_Z 0).
  rewrite <- Zlt_Qlt. destruct t; [contradiction|]. simpl List.length. lia.
Qed.

Lemma tensor_numel_map (f : Q -> Q) (t : list Q) :
  tensor_numel (map f t) = tensor_numel t.
Proof. unfold tensor_numel. now rewrite length_map. Qed.

Lemma reg_func_season_some (weights : list Q) :
  weights <> [] ->
  reg_func_season weights
  = Some (tensor_sum (map Qabs weights) / tensor_numel (map Qabs weights)).
Proof. destruct weights; [contradiction|reflexivity]. Qed.

(** X22. The seasonality penalty has no value exactly on the tensor
    without elements. On any other tensor it is not negative, it is the
    same for the tensor and for its negation, and it is 0 on a tensor of
    zeros. *)
Theorem reg_func_season_value (weights : list Q) :
  (reg_func_season weights = None <-> weights = [])
  /\ (weights <> [] ->
      exists mean mean',
        reg_func_season weights = Some mean
        /\ reg_func_season (map Qopp weights) = Some mean'
        /\ 0 <= mean
        /\ mean' == mean
        /\ (Forall (fun w => w == 0) weights -> mean == 0)).
Proof.
  split.
  - destruct weights; split; intros H; try reflexivity; discriminate.
  - intros Hne. do 2 eexists.
    split; [now apply reg_func_season_some|].
    split; [apply reg_func_season_some; destruct weights;
            [contradiction|discriminate]|].
    rewrite !tensor_numel_map.
    pose proof (tensor_numel_pos weights Hne) as Hn.
    rewrite !tensor_sum_sum_of.
    pose proof (sum_of_nonneg Qabs weights Qabs_nonneg) as H0.
    split; [apply Qle_shift_div_l; [exact Hn|lra]|].
    split.
    + rewrite sum_of_map.
      rewrite (sum_of_ext (fun w => Qabs (- w)) Qabs) by apply Qabs_opp.
      reflexivity.
    + intros Hz. apply sum_of_abs_zero_iff in Hz. rewrite Hz.
      unfold Qdiv. ring.
Qed.

Lemma reg_func_season_value_witness :
  exists mean mean',
    reg_func_season [0.5; -1; 0.25] = Some mean
    /\ reg_func_season (map Qopp [0.5; -1; 0.25]) = Some mean'
    /\ 0 <= mean
    /\ mean' == mean
    /\ (Forall (fun w => w == 0) [0.5; -1; 0.25] -> mean == 0).
Proof.
  apply (proj2 (reg_func_season_value [0.5; -1; 0.25])). discriminate.
Defined.

Local Close Scope Q_scope.

(** ** The symmetric percentage error: further properties *)

Local Open Scope Q_scope.

Lemma sum_of2_swap (f : Q -> Q -> Q) (a : list Q) :
  forall b, sum_of2 f a b = sum_of2 (fun x y => f y x) b a.
Proof.
  induction a as [|x a IH]; intros [|y b]; simpl; try reflexivity.
  now rewrite IH.
Qed.

Lemma stpe_formula_swap (values estimates : list Q) :
  stpe_formula estimates values == stpe_formula values estimates.
Proof.
  unfold stpe_formula.
  rewrite (sum_of2_swap (fun e v => Qabs (e - v)) values estimates).
  rewrite (sum_of2_swap (fun e v => Qabs e + Qabs v) values estimates).
  rewrite (sum_of2_ext (fun x y => Qabs (y - x))
             (fun e v => Qabs (e - v)))
    by (intros x y; now rewrite Qabs_Qminus).
  rewrite (sum_of2_ext (fun x y => Qabs y + Qabs x)
             (fun e v => Qabs e + Qabs v))
    by (intros x y; ring).
  reflexivity.
Qed.

(** X24. The error is symmetric in its two arguments: the values and the
    estimates can be exchanged. *)
Theorem symmetric_total_percentage_error_swap (values estimates : list Q) :
  List.length values = List.length estimates ->
  exists r r',
    symmetric_total_percentage_error values estimates = inr r
    /\ symmetric_total_percentage_error estimates values = inr r'
    /\ r == r'.
Proof.
  intros Hlen.
  destruct (stpe_run values estimates Hlen) as [r [Hr Hf]].
  destruct (stpe_run estimates values (eq_sym Hlen)) as [r' [Hr' Hf']].
  exists r, r'. split; [exact Hr|]. split; [exact Hr'|].
  now rewrite Hf, Hf', stpe_formula_swap.
Qed.

Lemma symmetric_total_percentage_error_swap_witness :
  exists r r',
    symmetric_total_percentage_error [1; 2; -3] [1.5; -2; 0] = inr r
    /\ symmetric_total_percentage_error [1.5; -2; 0] [1; 2; -3] = inr r'
    /\ r == r'.
Proof.
  apply (symmetric_total_percentage_error_swap [1; 2; -3] [1.5; -2; 0]).
  reflexivity.
Defined.

(** X26. Arrays of different lengths, none of them of length one, are
    rejected with [ValueError]: no figure is returned. *)
Theorem symmetric_total_percentage_error_shapes (values estimates : list Q) :
  List.length values <> List.length estimates ->
  List.length values <> 1%nat ->
  List.length estimates <> 1%nat ->
  symmetric_total_percentage_error values estimates = inl ValueError.
Proof.
  intros Hlen Hv He. unfold symmetric_total_percentage_error, np_binop.
  assert (Hneq : Nat.eqb (List.length estimates) (List.length values)
                 = false) by (apply Nat.eqb_neq; congruence).
  rewrite Hneq.
  destruct estimates as [|e1 [|e2 estimates]];
    destruct values as [|v1 [|v2 values]];
    try reflexivity; simpl in Hv, He; congruence.
Qed.

Lemma symmetric_total_percentage_error_shapes_witness :
  symmetric_total_percentage_error [1; 2; -3] [1.5; -2] = inl ValueError.
Proof.
  apply symmetric_total_percentage_error_shapes; discriminate.
Defined.

(** X27. An array of one value is stretched: the single value is
    compared with every estimate, as the array that repeats it would
    be. *)
Theorem symmetric_total_percentage_error_broadcast (v : Q)
    (estimates : list Q) :
  symmetric_total_percentage_error [v] estimates
  = symmetric_total_percentage_error
      (repeat v (List.length estimates)) estimates.
Proof.
  assert (Hzip : forall f : Q -> Q -> Q,
             forall l w,
               zip_with f l (repeat w (List.length l))
               = map (fun x => f x w) l).
  { intros f l w. induction l as [|x l IH]; simpl; [reflexivity|].
    now rewrite IH. }
  assert (Hbin : forall (f : Q -> Q -> Q) l w,
             np_binop f l [w]
             = np_binop f l (repeat w (List.length l))).
  { intros f l w. unfold np_binop at 2.
    rewrite repeat_length, Nat.eqb_refl, Hzip.
    unfold np_binop. destruct l as [|x [|y l]]; reflexivity. }
  unfold symmetric_total_percentage_error, np_abs.
  rewrite (Hbin Qminus estimates v).
  change (map Qabs [v]) with [Qabs v].
  rewrite (Hbin Qplus (map Qabs estimates) (Qabs v)).
  rewrite length_map, map_repeat. reflexivity.
Qed.

Local Close Scope Q_scope.
